(** * ts_hashmap: a bucketed hash map with separate chaining

    Shallow embedding of [src/ts_hashmap.c] and [src/ts_hashmap.h].

    The map is an array of bucket heads, each the head of a singly linked
    chain of [(key, value)] entries, together with an entry count and six
    profiling counters.  The embedding follows one thread: every property
    below is about a run in which no other thread operates on the map, so a
    [pthread_mutex_lock]/[pthread_mutex_unlock] pair around a critical
    section has no effect on the data and is left out of the operations; the
    lock and unlock calls each operation makes are listed apart
    ([get_locks], [put_locks], [del_locks]).  [printmap] and the teardown of
    [freeMap] are the sequences of the calls they make ([printf], [free],
    [pthread_mutex_destroy]).

    - a C [int] is a [Z]; [x++] and [x--] on a counter are written with the
      two's-complement wrap-around of a 32-bit machine ([int_incr],
      [int_decr]; C itself leaves signed overflow undefined), and the cast
      [(unsigned int) x] is [to_unsigned];
    - a chain of [ts_entry_t] linked through [next] is a [list ts_entry_t]
      (entries are never shared between chains);
    - [map->table] is a [list] of chains read with stdpp's lookup [!!] and
      written with [<[ i := _ ]>];
    - an operation returns [None] where the C code has no defined behaviour
      (the remainder by a zero capacity, a bucket index outside the table);
    - [malloc] and [calloc] may fail: [initmap] takes the outcome of its
      three allocations and threads the set of live heap blocks, [put] takes
      the outcome of the one allocation it may perform. *)

From Stdlib Require Import ZArith Lia Floats.
From stdpp Require Import base numbers option list gmap strings pretty.

Local Open Scope Z_scope.

(** ** C integers *)

Definition INT_MAX : Z := 2147483647.

Definition UINT_MODULUS : Z := 4294967296.

(** [(unsigned int) x] *)
Definition to_unsigned (x : Z) : Z := x mod UINT_MODULUS.

(** The value of a 32-bit two's-complement [int] holding [x] modulo [2^32]. *)
Definition int_wrap (x : Z) : Z := (x + 2147483648) mod UINT_MODULUS - 2147483648.

(** [x++] and [x--] on an [int]. *)
Definition int_incr (x : Z) : Z := int_wrap (x + 1).
Definition int_decr (x : Z) : Z := int_wrap (x - 1).

(** ** Data model ([ts_hashmap.h]) *)

Record ts_entry_t : Type := mk_entry {
  entry_key : Z;
  entry_value : Z
}.

Record ts_hashmap_t : Type := mk_map {
  table : list (list ts_entry_t);
  numOps : Z;
  capacity : Z;
  size : Z;
  gets : Z;
  put_adds : Z;
  put_reps : Z;
  del_succ : Z;
  del_fail : Z
}.

(** Field updates. *)

Definition set_bucket (index : nat) (chain : list ts_entry_t)
    (map : ts_hashmap_t) : ts_hashmap_t :=
  mk_map (<[index := chain]> (table map)) (numOps map) (capacity map) (size map)
         (gets map) (put_adds map) (put_reps map) (del_succ map) (del_fail map).

(** [map->size++] and [map->size--] *)
Definition grow_size (map : ts_hashmap_t) : ts_hashmap_t :=
  mk_map (table map) (numOps map) (capacity map) (int_incr (size map))
         (gets map) (put_adds map) (put_reps map) (del_succ map) (del_fail map).

Definition shrink_size (map : ts_hashmap_t) : ts_hashmap_t :=
  mk_map (table map) (numOps map) (capacity map) (int_decr (size map))
         (gets map) (put_adds map) (put_reps map) (del_succ map) (del_fail map).

(** [map->numOps++] and the five outcome counters. *)
Definition count_numOps (map : ts_hashmap_t) : ts_hashmap_t :=
  mk_map (table map) (int_incr (numOps map)) (capacity map) (size map)
         (gets map) (put_adds map) (put_reps map) (del_succ map) (del_fail map).

Definition count_gets (map : ts_hashmap_t) : ts_hashmap_t :=
  mk_map (table map) (numOps map) (capacity map) (size map)
         (int_incr (gets map)) (put_adds map) (put_reps map) (del_succ map)
         (del_fail map).

Definition count_put_adds (map : ts_hashmap_t) : ts_hashmap_t :=
  mk_map (table map) (numOps map) (capacity map) (size map)
         (gets map) (int_incr (put_adds map)) (put_reps map) (del_succ map)
         (del_fail map).

Definition count_put_reps (map : ts_hashmap_t) : ts_hashmap_t :=
  mk_map (table map) (numOps map) (capacity map) (size map)
         (gets map) (put_adds map) (int_incr (put_reps map)) (del_succ map)
         (del_fail map).

Definition count_del_succ (map : ts_hashmap_t) : ts_hashmap_t :=
  mk_map (table map) (numOps map) (capacity map) (size map)
         (gets map) (put_adds map) (put_reps map) (int_incr (del_succ map))
         (del_fail map).

Definition count_del_fail (map : ts_hashmap_t) : ts_hashmap_t :=
  mk_map (table map) (numOps map) (capacity map) (size map)
         (gets map) (put_adds map) (put_reps map) (del_succ map)
         (int_incr (del_fail map)).

(** ** Construction ([initmap]) *)

(** What the C implementation fixes and the source leaves to it: the width of
    [size_t] and the size of a pointer. *)
Record abi : Type := mk_abi {
  size_bits : Z;
  sizeof_ptr : Z
}.

Definition lp64 : abi := mk_abi 64 8.

Definition SIZE_MODULUS (a : abi) : Z := 2 ^ size_bits a.

(** [(size_t) x] *)
Definition to_size_t (a : abi) (x : Z) : Z := x mod SIZE_MODULUS a.

(** The outcome of the three allocations of [initmap], in program order:
    [true] when the allocator has memory to hand out. *)
Record alloc_env : Type := mk_env {
  map_ok : bool;
  table_ok : bool;
  locks_ok : bool
}.

(** The heap is the set of live blocks; a block is named by its address.
    Whether [malloc] succeeds is the allocator's choice, whatever the size
    asked for. *)
Definition malloc (ok : bool) (h : gset nat) : option nat * gset nat :=
  if ok then let p := fresh h in (Some p, {[p]} ∪ h) else (None, h).

(** [calloc (nmemb, size)] returns a null pointer when [nmemb * size] objects
    cannot be represented in a [size_t], whatever memory is left. *)
Definition calloc (a : abi) (ok : bool) (nmemb size : Z) (h : gset nat)
    : option nat * gset nat :=
  if SIZE_MODULUS a <=? nmemb * size then (None, h) else malloc ok h.

Definition free (p : nat) (h : gset nat) : gset nat := h ∖ {[p]}.

(** The fields of a map that [initmap] returns: [calloc] zero-fills the table,
    so every bucket head is a null pointer. *)
Definition empty_map (capacity : Z) : ts_hashmap_t :=
  mk_map (replicate (Z.to_nat capacity) []) 0 capacity 0 0 0 0 0 0.

(** [initmap]: [None] is the null pointer.  The result carries the heap left
    behind.  The size of the third request, [capacity * sizeof
    (pthread_mutex_t)], is not part of the model: where that product wraps
    in [size_t] the loop that initialises the locks writes past the block
    granted, which this definition does not show ([locks_fit] states that it
    does not wrap). *)
Definition initmap (a : abi) (env : alloc_env) (capacity : Z) (h : gset nat)
    : option ts_hashmap_t * gset nat :=
  match malloc (map_ok env) h with
  | (None, h1) => (None, h1)
  | (Some map, h1) =>
      match calloc a (table_ok env) (to_size_t a capacity) (sizeof_ptr a) h1 with
      | (None, h2) => (None, free map h2)
      | (Some tbl, h2) =>
          match malloc (locks_ok env) h2 with
          | (None, h3) => (None, free map (free tbl h3))
          | (Some locks, h3) => (Some (empty_map capacity), h3)
          end
      end
  end.

(** ** Routing *)

(** [(unsigned int) key % (unsigned int) map->capacity]; the remainder by zero
    is undefined. *)
Definition bucket_index (map : ts_hashmap_t) (key : Z) : option nat :=
  let ucap := to_unsigned (capacity map) in
  if ucap =? 0 then None else Some (Z.to_nat (to_unsigned key mod ucap)).

(** ** get *)

(** The scan of [get]: [value] starts as [INT_MAX] and takes the value of the
    first entry whose key matches. *)
Fixpoint get_loop (key : Z) (entry : list ts_entry_t) : Z :=
  match entry with
  | [] => INT_MAX
  | e :: next =>
      if entry_key e =? key then entry_value e else get_loop key next
  end.

Definition get (map : ts_hashmap_t) (key : Z) : option (Z * ts_hashmap_t) :=
  index ← bucket_index map key;
  entry ← table map !! index;
  Some (get_loop key entry, count_gets (count_numOps map)).

(** ** put *)

(** The scan of [put]: [Some (old_val, chain)] when an entry matched
    ([found = 1]) and its value was overwritten in place, [None] when the scan
    ran off the end of the chain ([found = 0]). *)
Fixpoint put_loop (key value : Z) (entry : list ts_entry_t)
    : option (Z * list ts_entry_t) :=
  match entry with
  | [] => None
  | e :: next =>
      if entry_key e =? key
      then Some (entry_value e, mk_entry (entry_key e) value :: next)
      else '(old_val, next') ← put_loop key value next;
           Some (old_val, e :: next')
  end.

(** [malloc_ok] is the outcome of [malloc (sizeof (ts_entry_t))], consulted
    only when no entry matched.  The new entry is linked after [prev], the last
    entry of the chain, or becomes the bucket head when the chain is empty. *)
Definition put (map : ts_hashmap_t) (key value : Z) (malloc_ok : bool)
    : option (Z * ts_hashmap_t) :=
  index ← bucket_index map key;
  entry ← table map !! index;
  match put_loop key value entry with
  | Some (old_val, entry') =>
      Some (old_val, count_put_reps (count_numOps (set_bucket index entry' map)))
  | None =>
      if malloc_ok
      then Some (INT_MAX,
                 count_put_adds (count_numOps (grow_size
                   (set_bucket index (entry ++ [mk_entry key value]) map))))
      else Some (INT_MAX, count_numOps map)
  end.

(** ** del *)

(** The scan of [del]: [Some (value, chain)] when an entry matched and was
    unlinked, [None] otherwise. *)
Fixpoint del_loop (key : Z) (entry : list ts_entry_t)
    : option (Z * list ts_entry_t) :=
  match entry with
  | [] => None
  | e :: next =>
      if entry_key e =? key
      then Some (entry_value e, next)
      else '(value, next') ← del_loop key next;
           Some (value, e :: next')
  end.

Definition del (map : ts_hashmap_t) (key : Z) : option (Z * ts_hashmap_t) :=
  index ← bucket_index map key;
  entry ← table map !! index;
  match del_loop key entry with
  | Some (value, entry') =>
      Some (value, count_del_succ (count_numOps (shrink_size
                     (set_bucket index entry' map))))
  | None => Some (INT_MAX, count_del_fail (count_numOps map))
  end.

(** ** Runs of operations *)

Inductive op : Type :=
  | Get (key : Z)
  | Put (key value : Z) (malloc_ok : bool)
  | Del (key : Z).

Definition step (map : ts_hashmap_t) (o : op) : option (Z * ts_hashmap_t) :=
  match o with
  | Get key => get map key
  | Put key value malloc_ok => put map key value malloc_ok
  | Del key => del map key
  end.

(** The map after a sequence of calls made one after the other. *)
Fixpoint run (map : ts_hashmap_t) (ops : list op) : option ts_hashmap_t :=
  match ops with
  | [] => Some map
  | o :: rest => '(_, map') ← step map o; run map' rest
  end.

(** The values the calls returned. *)
Fixpoint results (map : ts_hashmap_t) (ops : list op) : option (list Z) :=
  match ops with
  | [] => Some []
  | o :: rest =>
      '(r, map') ← step map o; rs ← results map' rest; Some (r :: rs)
  end.

(** ** The profiling report of [freeMap] *)

(** The conversion of an [int] to a [double]; every [int] is exact. *)
Definition int_to_double (x : Z) : float :=
  if x <? 0 then PrimFloat.opp (PrimFloat.of_uint63 (Uint63.of_Z (- x)))
  else PrimFloat.of_uint63 (Uint63.of_Z x).

(** [(count * 100.0) / map->numOps], the argument [printf] receives for
    ["%.0f%%"]. *)
Definition percentage (count total : Z) : float :=
  PrimFloat.div (PrimFloat.mul (int_to_double count) 100%float)
                (int_to_double total).

Record report : Type := mk_report {
  pct_gets : float;
  pct_put_adds : float;
  pct_put_reps : float;
  pct_del_succ : float;
  pct_del_fail : float;
  total_ops : Z;
  map_size : Z
}.

Definition freeMap_report (map : ts_hashmap_t) : report :=
  mk_report (percentage (gets map) (numOps map))
            (percentage (put_adds map) (numOps map))
            (percentage (put_reps map) (numOps map))
            (percentage (del_succ map) (numOps map))
            (percentage (del_fail map) (numOps map))
            (numOps map) (size map).

(** ** Specification vocabulary *)

(** Some entry of the map, in whatever bucket, carries [key]. *)
Definition has_key (map : ts_hashmap_t) (key : Z) : bool :=
  existsb (λ e, entry_key e =? key) (concat (table map)).

(** Three outcomes of a mutating call, read off the map it starts from:
    a put that adds an entry, a put that gives up because [malloc] returned
    a null pointer, a delete that removes an entry. *)
Definition is_insert (map : ts_hashmap_t) (o : op) : bool :=
  match o with
  | Put key _ malloc_ok => negb (has_key map key) && malloc_ok
  | _ => false
  end.

Definition is_aborted (map : ts_hashmap_t) (o : op) : bool :=
  match o with
  | Put key _ malloc_ok => negb (has_key map key) && negb malloc_ok
  | _ => false
  end.

Definition is_removal (map : ts_hashmap_t) (o : op) : bool :=
  match o with
  | Del key => has_key map key
  | _ => false
  end.

(** The other three outcomes: a get, a put that overwrites a value, a delete
    that finds nothing. *)
Definition is_get (map : ts_hashmap_t) (o : op) : bool :=
  match o with
  | Get _ => true
  | _ => false
  end.

Definition is_replace (map : ts_hashmap_t) (o : op) : bool :=
  match o with
  | Put key _ _ => has_key map key
  | _ => false
  end.

Definition is_miss (map : ts_hashmap_t) (o : op) : bool :=
  match o with
  | Del key => negb (has_key map key)
  | _ => false
  end.

Definition is_call (map : ts_hashmap_t) (o : op) : bool := true.

(** How many calls of a run have the outcome [P]. *)
Fixpoint tally (P : ts_hashmap_t → op → bool) (map : ts_hashmap_t)
    (ops : list op) : Z :=
  match ops with
  | [] => 0
  | o :: rest =>
      (if P map o then 1 else 0) +
      match step map o with
      | Some (_, map') => tally P map' rest
      | None => 0
      end
  end.

(** The value of the first entry of a chain that carries [key]. *)
Fixpoint chain_lookup (key : Z) (chain : list ts_entry_t) : option Z :=
  match chain with
  | [] => None
  | e :: next =>
      if entry_key e =? key then Some (entry_value e) else chain_lookup key next
  end.

(** The value the map binds [key] to: the map read as a partial function. *)
Definition binding (map : ts_hashmap_t) (key : Z) : option Z :=
  index ← bucket_index map key;
  chain ← table map !! index;
  chain_lookup key chain.

(** A call that may change the binding of [key]. *)
Definition mutates (key : Z) (o : op) : bool :=
  match o with
  | Get _ => false
  | Put key' _ _ => key' =? key
  | Del key' => key' =? key
  end.

(** The sum of the chain lengths over all buckets. *)
Definition entries (map : ts_hashmap_t) : Z :=
  Z.of_nat (sum_list (length <$> table map)).

(** The shape every operation relies on: a positive [int] capacity and one
    bucket head per index. *)
Definition wf (map : ts_hashmap_t) : Prop :=
  0 < capacity map ≤ INT_MAX ∧ length (table map) = Z.to_nat (capacity map).

(** The bucket invariant: in bucket [i], no key occurs twice and every key
    routes to [i]. *)
Definition bucket_ok (cap : Z) (i : nat) (chain : list ts_entry_t) : Prop :=
  NoDup (entry_key <$> chain) ∧
  Forall (λ e, to_unsigned (entry_key e) mod cap = Z.of_nat i) chain.

Definition map_inv (map : ts_hashmap_t) : Prop :=
  wf map ∧
  ∀ (i : nat) (chain : list ts_entry_t),
    table map !! i = Some chain → bucket_ok (capacity map) i chain.

(** The run of section 8 of the specification, on a map of capacity 4. *)
Definition scenario : list op :=
  [Put 1 10 true; Put 5 20 true; Get 1; Put 1 11 true; Del 5; Get 5].

Definition all_ok : alloc_env := mk_env true true true.

(** ** The dump of [printmap] *)

(** The calls of [printf] that [printmap] makes, with their arguments:
    ["[%d] -> "], ["(%d,%d)"], [" -> "] and the newline. *)
Inductive printf_call : Type :=
  | Print_bucket (i : Z)
  | Print_entry (key value : Z)
  | Print_arrow
  | Print_newline.

(** The inner loop: every entry, and an arrow after each entry that has a
    successor. *)
Fixpoint print_chain (entry : list ts_entry_t) : list printf_call :=
  match entry with
  | [] => []
  | e :: next =>
      Print_entry (entry_key e) (entry_value e)
      :: (match next with [] => [] | _ :: _ => [Print_arrow] end)
      ++ print_chain next
  end.

(** The outer loop, from bucket [i] on, for [count] more buckets. *)
Fixpoint printmap_loop (map : ts_hashmap_t) (i : Z) (count : nat)
    : option (list printf_call) :=
  match count with
  | O => Some []
  | S count' =>
      entry ← table map !! Z.to_nat i;
      rest ← printmap_loop map (i + 1) count';
      Some (Print_bucket i :: print_chain entry ++ Print_newline :: rest)
  end.

(** [for (int i = 0; i < map->capacity; i++)]: no round for a capacity that
    is not positive. *)
Definition printmap (map : ts_hashmap_t) : option (list printf_call) :=
  printmap_loop map 0 (Z.to_nat (capacity map)).

(** The text of one call; ["%d"] prints the decimal numeral of an [int]. *)
Definition render_call (call : printf_call) : string :=
  match call with
  | Print_bucket i => "[" +:+ pretty i +:+ "] -> "
  | Print_entry key value => "(" +:+ pretty key +:+ "," +:+ pretty value +:+ ")"
  | Print_arrow => " -> "
  | Print_newline => String (Ascii.ascii_of_nat 10) EmptyString
  end.

Definition render (calls : list printf_call) : string :=
  foldr (λ call text, render_call call +:+ text) EmptyString calls.

(** The pairs and the bucket indices a dump shows, in the order shown. *)
Definition printed_entries (calls : list printf_call) : list (Z * Z) :=
  omap (λ call, match call with
                | Print_entry key value => Some (key, value)
                | _ => None
                end) calls.

Definition printed_buckets (calls : list printf_call) : list Z :=
  omap (λ call, match call with
                | Print_bucket i => Some i
                | _ => None
                end) calls.

(** ** The mutexes *)

Inductive mutex : Type :=
  | Bucket_lock (index : nat)
  | NumOps_mutex
  | Size_mutex.

#[global] Instance mutex_eq_dec : EqDecision mutex.
Proof. solve_decision. Defined.

Inductive lock_event : Type :=
  | Lock (m : mutex)
  | Unlock (m : mutex).

(** The [pthread_mutex_lock] and [pthread_mutex_unlock] calls of [get], in
    program order. *)
Definition get_locks (map : ts_hashmap_t) (key : Z) : option (list lock_event) :=
  index ← bucket_index map key;
  entry ← table map !! index;
  Some [Lock (Bucket_lock index); Unlock (Bucket_lock index);
        Lock NumOps_mutex; Unlock NumOps_mutex;
        Lock NumOps_mutex; Unlock NumOps_mutex].

(** Those of [put], on its three paths. *)
Definition put_locks (map : ts_hashmap_t) (key value : Z) (malloc_ok : bool)
    : option (list lock_event) :=
  index ← bucket_index map key;
  entry ← table map !! index;
  match put_loop key value entry with
  | Some _ =>
      Some [Lock (Bucket_lock index); Unlock (Bucket_lock index);
            Lock NumOps_mutex; Unlock NumOps_mutex;
            Lock NumOps_mutex; Unlock NumOps_mutex]
  | None =>
      if malloc_ok
      then Some [Lock (Bucket_lock index);
                 Lock Size_mutex; Unlock Size_mutex;
                 Unlock (Bucket_lock index);
                 Lock NumOps_mutex; Unlock NumOps_mutex;
                 Lock NumOps_mutex; Unlock NumOps_mutex]
      else Some [Lock (Bucket_lock index); Unlock (Bucket_lock index);
                 Lock NumOps_mutex; Unlock NumOps_mutex]
  end.

(** Those of [del], on its two paths. *)
Definition del_locks (map : ts_hashmap_t) (key : Z) : option (list lock_event) :=
  index ← bucket_index map key;
  entry ← table map !! index;
  match del_loop key entry with
  | Some _ =>
      Some [Lock (Bucket_lock index);
            Lock Size_mutex; Unlock Size_mutex;
            Unlock (Bucket_lock index);
            Lock NumOps_mutex; Unlock NumOps_mutex;
            Lock NumOps_mutex; Unlock NumOps_mutex]
  | None =>
      Some [Lock (Bucket_lock index); Unlock (Bucket_lock index);
            Lock NumOps_mutex; Unlock NumOps_mutex;
            Lock NumOps_mutex; Unlock NumOps_mutex]
  end.

Definition step_locks (map : ts_hashmap_t) (o : op) : option (list lock_event) :=
  match o with
  | Get key => get_locks map key
  | Put key value malloc_ok => put_locks map key value malloc_ok
  | Del key => del_locks map key
  end.

Fixpoint run_locks (map : ts_hashmap_t) (ops : list op)
    : option (list lock_event) :=
  match ops with
  | [] => Some []
  | o :: rest =>
      events ← step_locks map o;
      '(_, map') ← step map o;
      events' ← run_locks map' rest;
      Some (events ++ events')
  end.

(** One thread and its default (non-recursive) mutexes: locking a mutex the
    thread holds, or unlocking one it does not hold, is an error. *)
Definition lock_step (held : list mutex) (event : lock_event)
    : option (list mutex) :=
  match event with
  | Lock m => if decide (m ∈ held) then None else Some (m :: held)
  | Unlock m =>
      if decide (m ∈ held) then Some (filter (λ m', m' ≠ m) held) else None
  end.

(** The mutexes held after each event. *)
Fixpoint lock_trace (held : list mutex) (events : list lock_event)
    : option (list (list mutex)) :=
  match events with
  | [] => Some []
  | event :: rest =>
      held' ← lock_step held event;
      trace ← lock_trace held' rest;
      Some (held' :: trace)
  end.

(** The mutexes held after the last event. *)
Fixpoint lock_run (held : list mutex) (events : list lock_event)
    : option (list mutex) :=
  match events with
  | [] => Some held
  | event :: rest => held' ← lock_step held event; lock_run held' rest
  end.

(** What a thread inside a call may hold: nothing, the lock of one bucket,
    [size_mutex] inside the lock of one bucket, or [numOps_mutex] alone. *)
Definition held_ok (held : list mutex) : Prop :=
  held = [] ∨ held = [NumOps_mutex] ∨
  ∃ index, held = [Bucket_lock index] ∨ held = [Size_mutex; Bucket_lock index].

(** ** Teardown ([freeMap]) *)

(** What [freeMap] gives back, in program order. *)
Inductive release : Type :=
  | Free_entry (e : ts_entry_t)
  | Free_table
  | Destroy_mutex (m : mutex)
  | Free_locks
  | Free_map.

(** The loop over the buckets that frees every entry of every chain, from
    bucket [i] on, for [count] more buckets. *)
Fixpoint free_entries_loop (map : ts_hashmap_t) (i : Z) (count : nat)
    : option (list release) :=
  match count with
  | O => Some []
  | S count' =>
      entry ← table map !! Z.to_nat i;
      rest ← free_entries_loop map (i + 1) count';
      Some ((Free_entry <$> entry) ++ rest)
  end.

(** The loop that destroys the bucket locks. *)
Fixpoint destroy_locks_loop (i : nat) (count : nat) : list release :=
  match count with
  | O => []
  | S count' => Destroy_mutex (Bucket_lock i) :: destroy_locks_loop (S i) count'
  end.

(** [freeMap]: nothing at all for the null pointer ([None]); else the report,
    then the releases. *)
Definition freeMap (map : option ts_hashmap_t)
    : option (option report * list release) :=
  match map with
  | None => Some (None, [])
  | Some map =>
      frees ← free_entries_loop map 0 (Z.to_nat (capacity map));
      Some (Some (freeMap_report map),
            frees ++ [Free_table]
            ++ destroy_locks_loop 0 (Z.to_nat (capacity map))
            ++ [Free_locks; Destroy_mutex NumOps_mutex;
                Destroy_mutex Size_mutex; Free_map])
  end.

(** The mutexes [initmap] initialises, in program order. *)
Fixpoint init_locks_loop (i : nat) (count : nat) : list mutex :=
  match count with
  | O => []
  | S count' => Bucket_lock i :: init_locks_loop (S i) count'
  end.

Definition initmap_mutexes (capacity : Z) : list mutex :=
  init_locks_loop 0 (Z.to_nat capacity) ++ [NumOps_mutex; Size_mutex].

(** The entries and the mutexes a teardown releases. *)
Definition freed_entries (rs : list release) : list ts_entry_t :=
  omap (λ r, match r with Free_entry e => Some e | _ => None end) rs.

Definition destroyed_mutexes (rs : list release) : list mutex :=
  omap (λ r, match r with Destroy_mutex m => Some m | _ => None end) rs.

(** The three blocks of the map itself among the releases. *)
Definition freed_blocks (rs : list release) : list release :=
  omap (λ r, match r with
             | Free_entry _ | Destroy_mutex _ => None
             | _ => Some r
             end) rs.

(** ** The map as a finite function *)

(** The bindings of the map, read off all its entries. *)
Definition contents (map : ts_hashmap_t) : gmap Z Z :=
  list_to_map ((λ e, (entry_key e, entry_value e)) <$> concat (table map)).

(** A finite function with the interface of the map: [get] looks up, [put]
    inserts unless it needs memory and gets none, [del] deletes; each returns
    the old binding, [INT_MAX] standing for none. *)
Definition model_step (f : gmap Z Z) (o : op) : Z * gmap Z Z :=
  match o with
  | Get key => (default INT_MAX (f !! key), f)
  | Put key value malloc_ok =>
      (default INT_MAX (f !! key),
       if malloc_ok || bool_decide (is_Some (f !! key))
       then <[key := value]> f else f)
  | Del key => (default INT_MAX (f !! key), delete key f)
  end.

Fixpoint model_run (f : gmap Z Z) (ops : list op) : list Z * gmap Z Z :=
  match ops with
  | [] => ([], f)
  | o :: rest =>
      let '(r, f') := model_step f o in
      let '(rs, f'') := model_run f' rest in
      (r :: rs, f'')
  end.

(** The number of calls of one kind in a sequence. *)
Definition is_Get_call (o : op) : bool :=
  match o with Get _ => true | _ => false end.

Definition is_Put_call (o : op) : bool :=
  match o with Put _ _ _ => true | _ => false end.

Definition is_Del_call (o : op) : bool :=
  match o with Del _ => true | _ => false end.

Fixpoint calls (kind : op → bool) (ops : list op) : Z :=
  match ops with
  | [] => 0
  | o :: rest => (if kind o then 1 else 0) + calls kind rest
  end.

(** The number of keys the map binds. *)
Definition keys_bound (map : ts_hashmap_t) : Z :=
  Z.of_nat (stdpp.base.size (contents map)).

(** A map with a chain of three: the keys 1, 5 and -3 all route to bucket 1
    of 4. *)
Definition chained_map : ts_hashmap_t :=
  mk_map [[]; [mk_entry 1 10; mk_entry 5 20; mk_entry (-3) 7]; []; []]
         3 4 3 0 3 0 0 0.


(** * Properties *)

(** ** The scenario, evaluated *)

Example scenario_results :
  results (empty_map 4) scenario
  = Some [INT_MAX; INT_MAX; 10; 10; 20; INT_MAX].
Proof. reflexivity. Qed.

Example scenario_final :
  run (empty_map 4) scenario
  = Some (mk_map [[]; [mk_entry 1 11]; []; []] 6 4 1 2 2 1 1 0).
Proof. reflexivity. Qed.

Example initmap_lp64_4 :
  (initmap lp64 all_ok 4 ∅).1 = Some (empty_map 4).
Proof. vm_compute. reflexivity. Qed.

Example percentage_1_2 : percentage 1 2 = 50%float.
Proof. vm_compute. reflexivity. Qed.

(** ** C integers *)

Section CIntegers.

Lemma int_wrap_exact (x : Z) : - 2147483648 ≤ x ≤ INT_MAX → int_wrap x = x.
Proof.
  intros Hx. unfold int_wrap, UINT_MODULUS, INT_MAX in *.
  rewrite Z.mod_small; lia.
Qed.

(** Incrementing and decrementing commute with the reduction to 32 bits. *)
Lemma int_incr_wrap (x : Z) : int_incr (int_wrap x) = int_wrap (x + 1).
Proof.
  unfold int_incr, int_wrap. f_equal.
  replace ((x + 2147483648) mod UINT_MODULUS - 2147483648 + 1 + 2147483648)
    with ((x + 2147483648) mod UINT_MODULUS + 1) by lia.
  rewrite Zplus_mod_idemp_l. f_equal. lia.
Qed.

Lemma int_decr_wrap (x : Z) : int_decr (int_wrap x) = int_wrap (x - 1).
Proof.
  unfold int_decr, int_wrap. f_equal.
  replace ((x + 2147483648) mod UINT_MODULUS - 2147483648 - 1 + 2147483648)
    with ((x + 2147483648) mod UINT_MODULUS + (- 1)) by lia.
  rewrite Zplus_mod_idemp_l. f_equal. lia.
Qed.

Lemma to_unsigned_capacity (c : Z) : 0 < c ≤ INT_MAX → to_unsigned c = c.
Proof.
  intros Hc. unfold to_unsigned, UINT_MODULUS, INT_MAX in *.
  apply Z.mod_small. lia.
Qed.

End CIntegers.

(** ** Chains *)

Section Chains.

Implicit Types (key value : Z) (chain : list ts_entry_t).

Lemma get_loop_lookup key chain :
  get_loop key chain = default INT_MAX (chain_lookup key chain).
Proof.
  induction chain as [|e next IH]; simpl; [done|].
  destruct (entry_key e =? key); done.
Qed.

Lemma chain_lookup_None key chain :
  chain_lookup key chain = None ↔ key ∉ entry_key <$> chain.
Proof.
  induction chain as [|e next IH]; simpl.
  - split; [intros _; apply not_elem_of_nil | done].
  - rewrite not_elem_of_cons. destruct (Z.eqb_spec (entry_key e) key) as [->|Hne].
    + split; [done | intros [? _]; done].
    + rewrite IH. split; [intros ?; split; [congruence | done] | intros [_ ?]; done].
Qed.

Lemma chain_lookup_existsb key chain :
  existsb (λ e, entry_key e =? key) chain = bool_decide (is_Some (chain_lookup key chain)).
Proof.
  induction chain as [|e next IH]; simpl; [done|].
  destruct (entry_key e =? key); done.
Qed.

Lemma chain_lookup_app key chain chain' :
  chain_lookup key (chain ++ chain')
  = match chain_lookup key chain with
    | Some v => Some v
    | None => chain_lookup key chain'
    end.
Proof.
  induction chain as [|e next IH]; simpl; [done|].
  destruct (entry_key e =? key); done.
Qed.

(** The scan of [put] finds an entry exactly when the key is bound; it then
    returns the bound value, rebinds the key and leaves keys, length and
    every other binding as they were. *)
Lemma put_loop_None key value chain :
  put_loop key value chain = None ↔ chain_lookup key chain = None.
Proof.
  induction chain as [|e next IH]; simpl; [done|].
  destruct (entry_key e =? key); [done|].
  destruct (put_loop key value next) as [[old next']|]; simpl.
  - split; [done|]. intros H. apply IH in H. done.
  - split; [|done]. intros _. by apply IH.
Qed.

Lemma put_loop_Some key value chain old chain' :
  put_loop key value chain = Some (old, chain') →
  chain_lookup key chain = Some old ∧
  chain_lookup key chain' = Some value ∧
  entry_key <$> chain' = entry_key <$> chain ∧
  (∀ key', key' ≠ key → chain_lookup key' chain' = chain_lookup key' chain).
Proof.
  revert old chain'. induction chain as [|e next IH]; intros old chain'; simpl; [done|].
  destruct (Z.eqb_spec (entry_key e) key) as [Heq|Hne].
  - intros [= <- <-]. simpl. rewrite Heq, Z.eqb_refl.
    split_and!; [done | done | done |]. intros key' Hk.
    destruct (Z.eqb_spec key key'); [congruence | done].
  - destruct (put_loop key value next) as [[old' next']|] eqn:Hput; simpl; [|done].
    intros [= <- <-]. destruct (IH _ _ eq_refl) as (H1 & H2 & H3 & H4).
    simpl. destruct (Z.eqb_spec (entry_key e) key); [done|].
    split_and!; [done | done | by f_equal |].
    intros key' Hk. rewrite H4; done.
Qed.

(** The scan of [del] finds an entry exactly when the key is bound; it
    then returns the bound value and drops that one entry. *)
Lemma del_loop_None key chain :
  del_loop key chain = None ↔ chain_lookup key chain = None.
Proof.
  induction chain as [|e next IH]; simpl; [done|].
  destruct (entry_key e =? key); [done|].
  destruct (del_loop key next) as [[old next']|]; simpl.
  - split; [done|]. intros H. apply IH in H. done.
  - split; [|done]. intros _. by apply IH.
Qed.

Lemma del_loop_Some key chain v chain' :
  del_loop key chain = Some (v, chain') →
  chain_lookup key chain = Some v ∧
  length chain = S (length chain') ∧
  (∀ key', key' ≠ key → chain_lookup key' chain' = chain_lookup key' chain) ∧
  (∀ e, e ∈ chain' → e ∈ chain) ∧
  (NoDup (entry_key <$> chain) →
     NoDup (entry_key <$> chain') ∧ chain_lookup key chain' = None).
Proof.
  revert v chain'. induction chain as [|e next IH]; intros v chain'; simpl; [done|].
  destruct (Z.eqb_spec (entry_key e) key) as [Heq|Hne].
  - intros [= <- <-]. split_and!; [done | done | | |].
    + intros key' Hk. destruct (Z.eqb_spec (entry_key e) key'); [congruence | done].
    + intros e' He'. by right.
    + intros [Hnotin Hnd]%NoDup_cons. split; [done|].
      apply chain_lookup_None. by subst key.
  - destruct (del_loop key next) as [[v' next']|] eqn:Hdel; simpl; [|done].
    intros [= <- <-]. destruct (IH _ _ eq_refl) as (H1 & H2 & H3 & H4 & H5).
    simpl. split_and!; [done | lia | | |].
    + intros key' Hk. rewrite H3; done.
    + intros e' [->|He']%elem_of_cons; [left | right; auto].
    + intros [Hnotin Hnd]%NoDup_cons. destruct (H5 Hnd) as [Hnd' Hnone]. split.
      * apply NoDup_cons. split; [|done].
        intros (e' & Hk & He')%list_elem_of_fmap. apply Hnotin.
        apply list_elem_of_fmap. eauto.
      * destruct (Z.eqb_spec (entry_key e) key); done.
Qed.

Lemma chain_lookup_elem key value chain :
  chain_lookup key chain = Some value → mk_entry key value ∈ chain.
Proof.
  induction chain as [|e next IH]; simpl; [done|].
  destruct (Z.eqb_spec (entry_key e) key) as [Hk|Hk].
  - intros [= Hv]. destruct e as [k v]. simpl in *. subst. by left.
  - intros Hl. right. by apply IH.
Qed.

End Chains.

(** ** Tables *)

Section Tables.

Implicit Types (t : list (list ts_entry_t)) (chain : list ts_entry_t).

(** Writing one bucket head replaces one segment of the concatenation. *)
Lemma concat_insert t (i : nat) chain chain' :
  t !! i = Some chain →
  ∃ pre post,
    concat t = pre ++ chain ++ post ∧
    concat (<[i := chain']> t) = pre ++ chain' ++ post.
Proof.
  intros Hi. exists (concat (take i t)), (concat (drop (S i) t)). split.
  - rewrite <- (take_drop_middle t i chain Hi) at 1.
    by rewrite concat_app.
  - rewrite insert_take_drop by (by eapply lookup_lt_Some).
    by rewrite concat_app.
Qed.

Lemma elem_of_concat (e : ts_entry_t) t :
  e ∈ concat t ↔ ∃ (i : nat) chain, t !! i = Some chain ∧ e ∈ chain.
Proof.
  rewrite list_elem_of_In, in_concat. split.
  - intros (chain & Hc & He). apply list_elem_of_In, list_elem_of_lookup in Hc as [i Hi].
    exists i, chain. by rewrite list_elem_of_In.
  - intros (i & chain & Hi & He). exists chain. rewrite <- !list_elem_of_In.
    split; [|done]. apply list_elem_of_lookup. eauto.
Qed.

(** Chains without a repeated key whose keys route to their own bucket
    share no key. *)
Lemma NoDup_concat_keys (route : Z → nat) t (off : nat) :
  (∀ (i : nat) chain, t !! i = Some chain →
     NoDup (entry_key <$> chain) ∧
     Forall (λ e, route (entry_key e) = (off + i)%nat) chain) →
  NoDup (entry_key <$> concat t).
Proof.
  revert off. induction t as [|chain t IH]; intros off Ht; simpl.
  - apply NoDup_nil_2.
  - rewrite fmap_app. apply NoDup_app. split_and!.
    + by apply (Ht 0%nat chain).
    + intros key (e & -> & He)%list_elem_of_fmap (e' & Hk & He')%list_elem_of_fmap.
      apply elem_of_concat in He' as (j & chain' & Hj & He').
      destruct (Ht 0%nat chain eq_refl) as [_ Hr].
      destruct (Ht (S j) chain' Hj) as [_ Hr'].
      rewrite Forall_forall in Hr, Hr'.
      specialize (Hr _ He). specialize (Hr' _ He'). simpl in *.
      rewrite Hk in Hr. lia.
    + apply (IH (S off)). intros i chain' Hi.
      destruct (Ht (S i) chain' Hi) as [Hnd Hr]. split; [done|].
      eapply Forall_impl; [exact Hr|]. simpl. intros e He. lia.
Qed.

End Tables.

(** ** Well-formed maps *)

Section WellFormed.

Implicit Types (map : ts_hashmap_t) (key value : Z).

(** On a well-formed map every key routes to a bucket of the table. *)
Lemma wf_bucket map key :
  wf map →
  ∃ (i : nat) chain,
    bucket_index map key = Some i ∧
    table map !! i = Some chain ∧
    Z.of_nat i = to_unsigned key mod capacity map.
Proof.
  intros [Hcap Hlen]. unfold bucket_index.
  rewrite (to_unsigned_capacity _ Hcap).
  destruct (Z.eqb_spec (capacity map) 0) as [?|_]; [lia|].
  assert (0 ≤ to_unsigned key mod capacity map < capacity map) as Hidx
    by (apply Z.mod_pos_bound; lia).
  destruct (lookup_lt_is_Some_2 (table map)
              (Z.to_nat (to_unsigned key mod capacity map))) as [chain Hc];
    [lia|].
  eexists _, chain. split_and!; [done | done | lia].
Qed.

Lemma wf_binding map key (i : nat) chain :
  bucket_index map key = Some i →
  table map !! i = Some chain →
  binding map key = chain_lookup key chain.
Proof. intros Hi Hc. unfold binding. rewrite Hi. simpl. by rewrite Hc. Qed.

Lemma wf_empty_map (c : Z) : 0 < c ≤ INT_MAX → map_inv (empty_map c).
Proof.
  intros Hc. split; [split; simpl; [done | by rewrite length_replicate]|].
  simpl. intros i chain [-> _]%lookup_replicate. split; [apply NoDup_nil_2 | done].
Qed.

(** Under the bucket invariant a key is somewhere in the map exactly when
    the bucket it routes to binds it. *)
Lemma has_key_binding map key :
  map_inv map → has_key map key = bool_decide (is_Some (binding map key)).
Proof.
  intros [Hwf Hinv].
  destruct (wf_bucket map key Hwf) as (i & chain & Hi & Hc & Hr).
  rewrite (wf_binding _ _ _ _ Hi Hc), <- chain_lookup_existsb.
  unfold has_key. apply eq_true_iff_eq.
  rewrite !existsb_exists. split.
  - intros (e & He & Hk%Z.eqb_eq). exists e. split; [|by apply Z.eqb_eq].
    apply list_elem_of_In, elem_of_concat in He as (j & chain' & Hj & He).
    destruct (Hinv j chain' Hj) as [_ Hroute]. rewrite Forall_forall in Hroute.
    specialize (Hroute _ He). simpl in Hroute.
    rewrite Hk in Hroute. assert (j = i) as -> by lia.
    rewrite Hc in Hj. injection Hj as ->. by apply list_elem_of_In.
  - intros (e & He & Hk). exists e. split; [|done].
    apply list_elem_of_In, elem_of_concat. exists i, chain.
    by rewrite list_elem_of_In.
Qed.

(** Without the invariant, one direction remains: a key that is nowhere in
    the map is not bound. *)
Lemma has_key_false_binding map key :
  wf map → has_key map key = false → binding map key = None.
Proof.
  intros Hwf Hhas.
  destruct (wf_bucket map key Hwf) as (i & chain & Hi & Hc & Hr).
  rewrite (wf_binding _ _ _ _ Hi Hc).
  destruct (chain_lookup key chain) as [v|] eqn:Hl; [|done].
  assert (key ∈ entry_key <$> chain) as (e & Hk & He)%list_elem_of_fmap.
  { destruct (decide (key ∈ entry_key <$> chain)) as [|Hn]; [done|].
    apply chain_lookup_None in Hn. congruence. }
  assert (has_key map key = true) as Htrue; [|congruence].
  unfold has_key. apply existsb_exists. exists e. split.
  - apply list_elem_of_In, elem_of_concat. eauto.
  - apply Z.eqb_eq. done.
Qed.

(** A bound key has its entry in the table. *)
Lemma binding_entry map key value :
  binding map key = Some value →
  mk_entry key value ∈ concat (table map) ∧ has_key map key = true.
Proof.
  unfold binding. destruct (bucket_index map key) as [i|]; simpl; [|done].
  destruct (table map !! i) as [chain|] eqn:Hc; simpl; [|done].
  intros He%chain_lookup_elem.
  assert (mk_entry key value ∈ concat (table map)) as Hin
    by (apply elem_of_concat; eauto).
  split; [done|]. unfold has_key. apply existsb_exists.
  exists (mk_entry key value). split; [by apply list_elem_of_In|].
  simpl. apply Z.eqb_refl.
Qed.

End WellFormed.

(** ** One call *)

Section Calls.

Implicit Types (map : ts_hashmap_t) (key value : Z) (chain : list ts_entry_t).

(** The path [put] takes is decided by the scan of the bucket the key
    routes to. *)
Lemma put_cases map key value malloc_ok :
  wf map →
  ∃ (i : nat) chain,
    bucket_index map key = Some i ∧ table map !! i = Some chain ∧
    Z.of_nat i = to_unsigned key mod capacity map ∧
    ((∃ old chain', put_loop key value chain = Some (old, chain') ∧
        put map key value malloc_ok
        = Some (old, count_put_reps (count_numOps (set_bucket i chain' map))))
     ∨ (put_loop key value chain = None ∧ malloc_ok = true ∧
        put map key value malloc_ok
        = Some (INT_MAX, count_put_adds (count_numOps (grow_size
                  (set_bucket i (chain ++ [mk_entry key value]) map)))))
     ∨ (put_loop key value chain = None ∧ malloc_ok = false ∧
        put map key value malloc_ok = Some (INT_MAX, count_numOps map))).
Proof.
  intros Hwf. destruct (wf_bucket map key Hwf) as (i & chain & Hi & Hc & Hr).
  exists i, chain. split_and!; [done | done | done |].
  unfold put. rewrite Hi. simpl. rewrite Hc. simpl.
  destruct (put_loop key value chain) as [[old chain']|].
  - left. eauto.
  - destruct malloc_ok; [right; left | right; right]; done.
Qed.

Lemma del_cases map key :
  wf map →
  ∃ (i : nat) chain,
    bucket_index map key = Some i ∧ table map !! i = Some chain ∧
    Z.of_nat i = to_unsigned key mod capacity map ∧
    ((∃ v chain', del_loop key chain = Some (v, chain') ∧
        del map key
        = Some (v, count_del_succ (count_numOps (shrink_size
                     (set_bucket i chain' map)))))
     ∨ (del_loop key chain = None ∧
        del map key = Some (INT_MAX, count_del_fail (count_numOps map)))).
Proof.
  intros Hwf. destruct (wf_bucket map key Hwf) as (i & chain & Hi & Hc & Hr).
  exists i, chain. split_and!; [done | done | done |].
  unfold del. rewrite Hi. simpl. rewrite Hc. simpl.
  destruct (del_loop key chain) as [[v chain']|].
  - left. eauto.
  - right. done.
Qed.

Lemma get_binding map key :
  wf map →
  get map key
  = Some (default INT_MAX (binding map key), count_gets (count_numOps map)).
Proof.
  intros Hwf. destruct (wf_bucket map key Hwf) as (i & chain & Hi & Hc & Hr).
  rewrite (wf_binding _ _ _ _ Hi Hc). unfold get. rewrite Hi. simpl.
  rewrite Hc. simpl. by rewrite get_loop_lookup.
Qed.

(** Writing bucket [i] changes the bindings of the keys that route to [i]
    and of no other key. *)
Lemma binding_set_bucket map (i : nat) chain' key :
  (i < length (table map))%nat →
  binding (set_bucket i chain' map) key
  = if decide (bucket_index map key = Some i)
    then chain_lookup key chain' else binding map key.
Proof.
  intros Hlt. unfold binding.
  change (bucket_index (set_bucket i chain' map) key) with (bucket_index map key).
  destruct (bucket_index map key) as [j|]; simpl; [|done].
  case_decide as Hj.
  - injection Hj as ->. by rewrite list_lookup_insert_eq.
  - rewrite list_lookup_insert_ne; [done | congruence].
Qed.

Lemma wf_set_bucket map (i : nat) chain' : wf map → wf (set_bucket i chain' map).
Proof. intros [Hc Hl]. split; simpl; [done | by rewrite length_insert]. Qed.

Lemma map_inv_set_bucket map (i : nat) chain' :
  map_inv map → bucket_ok (capacity map) i chain' →
  map_inv (set_bucket i chain' map).
Proof.
  intros [Hwf Hinv] Hok. split; [by apply wf_set_bucket|].
  simpl. intros j chain Hj.
  destruct (decide (i = j)) as [->|Hne].
  - pose proof (lookup_lt_Some _ _ _ Hj) as Hlt. rewrite length_insert in Hlt.
    rewrite list_lookup_insert_eq in Hj by done. by injection Hj as <-.
  - rewrite list_lookup_insert_ne in Hj by done. by apply Hinv.
Qed.

Lemma entries_concat map : entries map = Z.of_nat (length (concat (table map))).
Proof.
  unfold entries. f_equal.
  induction (table map) as [|chain t IH]; [done|].
  rewrite fmap_cons. simpl. rewrite length_app, IH. done.
Qed.

Lemma entries_set_bucket map (i : nat) chain chain' :
  table map !! i = Some chain →
  entries (set_bucket i chain' map)
  = entries map - Z.of_nat (length chain) + Z.of_nat (length chain').
Proof.
  intros Hc. rewrite !entries_concat. simpl.
  destruct (concat_insert (table map) i chain chain' Hc) as (pre & post & -> & ->).
  rewrite !length_app. lia.
Qed.

End Calls.

(** ** One step *)

Section Steps.

Implicit Types (map : ts_hashmap_t) (key value : Z) (o : op).

(** A call is defined on a well-formed map, keeps it well formed and leaves
    alone the binding of every key it does not mutate. *)
Lemma step_frame map o key :
  wf map → mutates key o = false →
  ∃ r map', step map o = Some (r, map') ∧ wf map' ∧
            binding map' key = binding map key.
Proof.
  intros Hwf Hmut. destruct o as [key'|key' value malloc_ok|key']; simpl in *.
  - rewrite get_binding by done. eauto.
  - apply Z.eqb_neq in Hmut.
    destruct (put_cases map key' value malloc_ok Hwf)
      as (i & chain & Hi & Hc & _ & [(old & chain' & Hl & ->)|[(Hl & _ & ->)|(Hl & _ & ->)]]);
      eexists _, _; (split; [done|]).
    + split; [by apply wf_set_bucket|].
      change (binding (set_bucket i chain' map) key = binding map key).
      rewrite binding_set_bucket by (by eapply lookup_lt_Some).
      case_decide as Hk; [|done].
      rewrite (wf_binding _ _ _ _ Hk Hc).
      apply put_loop_Some in Hl as (_ & _ & _ & Hother). by apply Hother.
    + split; [by apply wf_set_bucket|].
      change (binding (set_bucket i (chain ++ [mk_entry key' value]) map) key
              = binding map key).
      rewrite binding_set_bucket by (by eapply lookup_lt_Some).
      case_decide as Hk; [|done].
      rewrite (wf_binding _ _ _ _ Hk Hc), chain_lookup_app. simpl.
      destruct (Z.eqb_spec key' key); [done|]. by destruct (chain_lookup key chain).
    + done.
  - apply Z.eqb_neq in Hmut.
    destruct (del_cases map key' Hwf)
      as (i & chain & Hi & Hc & _ & [(v & chain' & Hl & ->)|(Hl & ->)]);
      eexists _, _; (split; [done|]).
    + split; [by apply wf_set_bucket|].
      change (binding (set_bucket i chain' map) key = binding map key).
      rewrite binding_set_bucket by (by eapply lookup_lt_Some).
      case_decide as Hk; [|done].
      rewrite (wf_binding _ _ _ _ Hk Hc).
      apply del_loop_Some in Hl as (_ & _ & Hother & _). by apply Hother.
    + done.
Qed.

Lemma run_frame map ops key :
  wf map → forallb (λ o, negb (mutates key o)) ops = true →
  ∃ map', run map ops = Some map' ∧ wf map' ∧
          binding map' key = binding map key.
Proof.
  revert map. induction ops as [|o ops IH]; intros map Hwf Hops; simpl in *.
  - eauto.
  - apply andb_true_iff in Hops as [Ho%negb_true_iff Hops].
    destruct (step_frame map o key Hwf Ho) as (r & map1 & -> & Hwf1 & Hb1). simpl.
    destruct (IH map1 Hwf1 Hops) as (map' & -> & Hwf' & Hb').
    eexists. split_and!; [done | done | congruence].
Qed.

End Steps.

(** ** The effect of one call on the invariant and on the counters *)

Section Effects.

Implicit Types (map : ts_hashmap_t) (key value : Z) (o : op).

Lemma has_key_chain map key (i : nat) chain :
  map_inv map → bucket_index map key = Some i → table map !! i = Some chain →
  has_key map key = bool_decide (is_Some (chain_lookup key chain)).
Proof.
  intros Hinv Hi Hc. rewrite has_key_binding by done.
  by rewrite (wf_binding _ _ _ _ Hi Hc).
Qed.

Lemma step_effect map o :
  map_inv map →
  ∃ r map',
    step map o = Some (r, map') ∧ map_inv map' ∧
    capacity map' = capacity map ∧
    numOps map' = int_incr (numOps map) ∧
    gets map' = (if is_get map o then int_incr (gets map) else gets map) ∧
    put_adds map'
    = (if is_insert map o then int_incr (put_adds map) else put_adds map) ∧
    put_reps map'
    = (if is_replace map o then int_incr (put_reps map) else put_reps map) ∧
    del_succ map'
    = (if is_removal map o then int_incr (del_succ map) else del_succ map) ∧
    del_fail map'
    = (if is_miss map o then int_incr (del_fail map) else del_fail map) ∧
    size map'
    = (if is_insert map o then int_incr (size map)
       else if is_removal map o then int_decr (size map) else size map) ∧
    entries map'
    = entries map + (if is_insert map o then 1 else 0)
                  - (if is_removal map o then 1 else 0).
Proof.
  intros Hinv. pose proof Hinv as [Hwf Hbuckets].
  destruct o as [key|key value malloc_ok|key]; simpl.
  - rewrite get_binding by done. eexists _, _. split; [done|].
    split_and!; try done. unfold entries. simpl. lia.
  - destruct (put_cases map key value malloc_ok Hwf)
      as (i & chain & Hi & Hc & Hr & [(old & chain' & Hl & ->)|[(Hl & -> & ->)|(Hl & -> & ->)]]);
      rewrite (has_key_chain _ _ _ _ Hinv Hi Hc);
      destruct (Hbuckets i chain Hc) as [Hnd Hroute].
    + apply put_loop_Some in Hl as (Hold & _ & Hkeys & _). rewrite Hold. simpl.
      eexists _, _. split; [done|].
      assert (map_inv (set_bucket i chain' map)) as Hinv'.
      { apply map_inv_set_bucket; [done|]. split; [by rewrite Hkeys|].
        assert (Forall (λ k, to_unsigned k mod capacity map = Z.of_nat i)
                       (entry_key <$> chain')) as Hroute'.
        { rewrite Hkeys. apply Forall_fmap. exact Hroute. }
        apply Forall_fmap in Hroute'. exact Hroute'. }
      split_and!; try done.
      change (entries (set_bucket i chain' map) = entries map + 0 - 0).
      rewrite (entries_set_bucket _ _ _ _ Hc).
      apply (f_equal length) in Hkeys. rewrite !length_fmap in Hkeys. lia.
    + apply put_loop_None in Hl. rewrite Hl. simpl.
      eexists _, _. split; [done|].
      assert (map_inv (set_bucket i (chain ++ [mk_entry key value]) map)) as Hinv'.
      { apply map_inv_set_bucket; [done|]. split.
        - rewrite fmap_app. apply NoDup_app. split_and!; [done | | apply NoDup_singleton].
          simpl. intros k Hk ->%list_elem_of_singleton.
          by apply chain_lookup_None in Hl.
        - apply Forall_app. split; [done|]. apply Forall_singleton. simpl. lia. }
      split_and!; try done.
      change (entries (set_bucket i (chain ++ [mk_entry key value]) map)
              = entries map + 1 - 0).
      rewrite (entries_set_bucket _ _ _ _ Hc), length_app. simpl. lia.
    + apply put_loop_None in Hl. rewrite Hl. simpl.
      eexists _, _. split; [done|]. split_and!; try done. unfold entries. simpl. lia.
  - destruct (del_cases map key Hwf)
      as (i & chain & Hi & Hc & Hr & [(v & chain' & Hl & ->)|(Hl & ->)]);
      rewrite (has_key_chain _ _ _ _ Hinv Hi Hc);
      destruct (Hbuckets i chain Hc) as [Hnd Hroute].
    + apply del_loop_Some in Hl as (Hold & Hlen & _ & Hsub & Hnd'). rewrite Hold. simpl.
      eexists _, _. split; [done|].
      assert (map_inv (set_bucket i chain' map)) as Hinv'.
      { apply map_inv_set_bucket; [done|]. split; [by apply Hnd'|].
        rewrite Forall_forall in Hroute. apply Forall_forall. auto. }
      split_and!; try done.
      change (entries (set_bucket i chain' map) = entries map + 0 - 1).
      rewrite (entries_set_bucket _ _ _ _ Hc). lia.
    + apply del_loop_None in Hl. rewrite Hl. simpl.
      eexists _, _. split; [done|]. split_and!; try done. unfold entries. simpl. lia.
Qed.

Lemma run_inv map ops :
  map_inv map →
  ∃ map', run map ops = Some map' ∧ map_inv map' ∧
          capacity map' = capacity map.
Proof.
  revert map. induction ops as [|o ops IH]; intros map Hinv; simpl; [eauto|].
  destruct (step_effect map o Hinv) as (r & map1 & -> & Hinv1 & Hcap & _). simpl.
  destruct (IH map1 Hinv1) as (map' & Hrun & Hinv' & Hcap').
  exists map'. split_and!; [done | done | congruence].
Qed.

(** The effect of a call, for the call that was made. *)
Lemma step_counters map o r map' :
  map_inv map → step map o = Some (r, map') →
  numOps map' = (if is_call map o then int_incr (numOps map) else numOps map) ∧
  gets map' = (if is_get map o then int_incr (gets map) else gets map) ∧
  put_adds map'
  = (if is_insert map o then int_incr (put_adds map) else put_adds map) ∧
  put_reps map'
  = (if is_replace map o then int_incr (put_reps map) else put_reps map) ∧
  del_succ map'
  = (if is_removal map o then int_incr (del_succ map) else del_succ map) ∧
  del_fail map'
  = (if is_miss map o then int_incr (del_fail map) else del_fail map).
Proof.
  intros Hinv Hstep.
  destruct (step_effect map o Hinv)
    as (r' & map1 & Hstep' & _ & _ & H1 & H2 & H3 & H4 & H5 & H6 & _).
  rewrite Hstep in Hstep'. injection Hstep' as <- <-. done.
Qed.

End Effects.

(** ** Counters along a run *)

Section Tallies.

(** A counter [c] that a call increments exactly when it has outcome [P]. *)
Variable c : ts_hashmap_t → Z.
Variable P : ts_hashmap_t → op → bool.
Hypothesis c_step :
  ∀ map o r map', map_inv map → step map o = Some (r, map') →
    c map' = if P map o then int_incr (c map) else c map.

(** The counter holds, reduced to 32 bits, its start value plus the number
    of calls with outcome [P]. *)
Lemma run_counter map ops map' (x : Z) :
  map_inv map → run map ops = Some map' → c map = int_wrap x →
  c map' = int_wrap (x + tally P map ops).
Proof.
  revert map x. induction ops as [|o ops IH]; intros map x Hinv Hrun Hx; simpl in *.
  - injection Hrun as <-. by rewrite Z.add_0_r.
  - destruct (step_effect map o Hinv) as (r & map1 & Hstep & Hinv1 & _).
    rewrite Hstep in Hrun |- *. simpl in Hrun.
    pose proof (c_step _ _ _ _ Hinv Hstep) as Hc.
    destruct (P map o).
    + rewrite Hx, int_incr_wrap in Hc.
      rewrite (IH map1 (x + 1)) by done. f_equal; lia.
    + rewrite Hx in Hc. rewrite (IH map1 x) by done. f_equal; lia.
Qed.

End Tallies.

Section RunCounters.

Implicit Types (map : ts_hashmap_t) (ops : list op).

Lemma tally_bounds (Q : ts_hashmap_t → op → bool) map ops :
  0 ≤ tally Q map ops ≤ Z.of_nat (length ops).
Proof.
  revert map. induction ops as [|o ops IH]; intros map; simpl; [lia|].
  assert (0 ≤ match step map o with
              | Some (_, map') => tally Q map' ops
              | None => 0
              end ≤ Z.of_nat (length ops)).
  { destruct (step map o) as [[r map']|]; [apply IH | lia]. }
  destruct (Q map o); lia.
Qed.

Lemma tally_is_call map ops map' :
  run map ops = Some map' → tally is_call map ops = Z.of_nat (length ops).
Proof.
  revert map. induction ops as [|o ops IH]; intros map Hrun; simpl in *; [done|].
  destruct (step map o) as [[r map1]|]; [|done]. simpl in Hrun.
  rewrite (IH _ Hrun). lia.
Qed.

(** Every call has exactly one of the six outcomes. *)
Lemma tally_partition map ops map' :
  run map ops = Some map' →
  tally is_get map ops + tally is_insert map ops + tally is_replace map ops
  + tally is_removal map ops + tally is_miss map ops
  + tally is_aborted map ops
  = Z.of_nat (length ops).
Proof.
  revert map. induction ops as [|o ops IH]; intros map Hrun; simpl in *; [done|].
  destruct (step map o) as [[r map1]|]; [|done]. simpl in Hrun.
  specialize (IH _ Hrun).
  destruct o as [key|key value malloc_ok|key]; simpl;
    try destruct (has_key map key); try destruct malloc_ok; simpl; lia.
Qed.

(** [size] follows the number of entries in the chains, reduced to 32 bits,
    and that number is the inserts less the removals. *)
Lemma run_size map ops map' :
  map_inv map → run map ops = Some map' →
  size map = int_wrap (entries map) →
  size map' = int_wrap (entries map') ∧
  entries map' = entries map + tally is_insert map ops - tally is_removal map ops.
Proof.
  revert map. induction ops as [|o ops IH]; intros map Hinv Hrun Hsz; simpl in *.
  - injection Hrun as <-. split; [done | lia].
  - destruct (step_effect map o Hinv)
      as (r & map1 & Hstep & Hinv1 & _ & _ & _ & _ & _ & _ & _ & Hsize & Hent).
    rewrite Hstep in Hrun |- *. simpl in Hrun.
    assert (is_insert map o = true → is_removal map o = false) as Hexcl
      by (destruct o; simpl; congruence).
    assert (size map1 = int_wrap (entries map1)) as Hsz1.
    { rewrite Hsize, Hent, Hsz. destruct (is_insert map o).
      - rewrite Hexcl by done. rewrite int_incr_wrap. f_equal. lia.
      - destruct (is_removal map o); [|f_equal; lia].
        rewrite int_decr_wrap. f_equal. lia. }
    destruct (IH map1 Hinv1 Hrun Hsz1) as [Hfin Hcount].
    split; [done|]. rewrite Hcount, Hent.
    destruct (is_insert map o), (is_removal map o); lia.
Qed.

End RunCounters.

(** ** Runs from an empty map *)

Section FreshRuns.

Variables (c : Z) (ops : list op) (map : ts_hashmap_t).
Hypothesis c_pos : 0 < c ≤ INT_MAX.
Hypothesis run_ops : run (empty_map c) ops = Some map.

(** Each counter holds, reduced to 32 bits, the number of calls of its
    class. *)
Lemma fresh_counters :
  numOps map = int_wrap (Z.of_nat (length ops)) ∧
  gets map = int_wrap (tally is_get (empty_map c) ops) ∧
  put_adds map = int_wrap (tally is_insert (empty_map c) ops) ∧
  put_reps map = int_wrap (tally is_replace (empty_map c) ops) ∧
  del_succ map = int_wrap (tally is_removal (empty_map c) ops) ∧
  del_fail map = int_wrap (tally is_miss (empty_map c) ops).
Proof.
  pose proof (wf_empty_map c c_pos) as Hinv.
  assert (∀ (f : ts_hashmap_t → Z) (P : ts_hashmap_t → op → bool),
            (∀ m o r m', map_inv m → step m o = Some (r, m') →
               f m' = if P m o then int_incr (f m) else f m) →
            f (empty_map c) = 0 →
            f map = int_wrap (tally P (empty_map c) ops)) as Hcount.
  { intros f P Hstep H0.
    by rewrite (run_counter f P Hstep (empty_map c) ops map 0). }
  rewrite <- (tally_is_call _ _ _ run_ops).
  split_and!; (apply Hcount; [|done]);
    intros m o r m' Hm Hstep; by apply (step_counters m o r m').
Qed.

Lemma entries_empty_map : entries (empty_map c) = 0.
Proof.
  unfold entries. simpl.
  induction (Z.to_nat c) as [|n IH]; simpl; done.
Qed.

Lemma fresh_size :
  size map = int_wrap (entries map) ∧
  entries map
  = tally is_insert (empty_map c) ops - tally is_removal (empty_map c) ops.
Proof.
  pose proof (wf_empty_map c c_pos) as Hinv.
  pose proof entries_empty_map as Hzero.
  destruct (run_size _ _ _ Hinv run_ops) as [Hsize Hent].
  - by rewrite Hzero.
  - split; [done|]. rewrite Hent, Hzero. lia.
Qed.

End FreshRuns.

(** ** Calls read as operations on the bindings *)

Section Bindings.

Implicit Types (map : ts_hashmap_t) (key value : Z).

(** A put on a bound key overwrites, whatever the allocator would answer. *)
Lemma put_replace map key value old malloc_ok :
  wf map → binding map key = Some old →
  ∃ map', put map key value malloc_ok = Some (old, map') ∧ wf map' ∧
          binding map' key = Some value.
Proof.
  intros Hwf Hb.
  destruct (put_cases map key value malloc_ok Hwf)
    as (i & chain & Hi & Hc & _ & [(old' & chain' & Hl & ->)|[(Hl & _)|(Hl & _)]]).
  - apply put_loop_Some in Hl as (Hold & Hnew & _).
    rewrite (wf_binding _ _ _ _ Hi Hc), Hold in Hb. injection Hb as ->.
    eexists. split_and!; [done | by apply wf_set_bucket |].
    change (binding (set_bucket i chain' map) key = Some value).
    rewrite binding_set_bucket by (by eapply lookup_lt_Some).
    by rewrite decide_True.
  - apply put_loop_None in Hl. rewrite (wf_binding _ _ _ _ Hi Hc) in Hb. congruence.
  - apply put_loop_None in Hl. rewrite (wf_binding _ _ _ _ Hi Hc) in Hb. congruence.
Qed.

(** A put on an unbound key, when [malloc] succeeds, returns [INT_MAX] and
    binds the key. *)
Lemma put_insert map key value :
  wf map → binding map key = None →
  ∃ map', put map key value true = Some (INT_MAX, map') ∧ wf map' ∧
          binding map' key = Some value.
Proof.
  intros Hwf Hb.
  destruct (put_cases map key value true Hwf)
    as (i & chain & Hi & Hc & _ & [(old' & chain' & Hl & _)|[(Hl & _ & ->)|(_ & ? & _)]]);
    [| |done].
  - apply put_loop_Some in Hl as (Hold & _).
    rewrite (wf_binding _ _ _ _ Hi Hc) in Hb. congruence.
  - eexists. split_and!; [done | by apply wf_set_bucket |].
    change (binding (set_bucket i (chain ++ [mk_entry key value]) map) key
            = Some value).
    rewrite binding_set_bucket by (by eapply lookup_lt_Some).
    rewrite decide_True by done. rewrite chain_lookup_app.
    apply put_loop_None in Hl. rewrite Hl. simpl. by rewrite Z.eqb_refl.
Qed.

(** A put on an unbound key, when [malloc] returns a null pointer, only
    counts the call. *)
Lemma put_abort map key value :
  wf map → binding map key = None →
  put map key value false = Some (INT_MAX, count_numOps map).
Proof.
  intros Hwf Hb.
  destruct (put_cases map key value false Hwf)
    as (i & chain & Hi & Hc & _ & [(old' & chain' & Hl & _)|[(_ & ? & _)|(_ & _ & ->)]]);
    [|done|done].
  apply put_loop_Some in Hl as (Hold & _).
  rewrite (wf_binding _ _ _ _ Hi Hc) in Hb. congruence.
Qed.

(** A put that is given memory returns the old binding, or [INT_MAX] for
    none, and binds the key. *)
Lemma put_binding map key value :
  wf map →
  ∃ map', put map key value true
          = Some (default INT_MAX (binding map key), map') ∧
          wf map' ∧ binding map' key = Some value.
Proof.
  intros Hwf. destruct (binding map key) as [old|] eqn:Hb; simpl.
  - by apply put_replace.
  - by apply put_insert.
Qed.

(** A delete returns the old binding, or [INT_MAX] for none.  Under the
    bucket invariant the key is unbound afterwards. *)
Lemma del_binding map key :
  wf map →
  ∃ map', del map key = Some (default INT_MAX (binding map key), map') ∧
          wf map' ∧
          (map_inv map → binding map' key = None) ∧
          (binding map key = None → map' = count_del_fail (count_numOps map)).
Proof.
  intros Hwf.
  destruct (del_cases map key Hwf)
    as (i & chain & Hi & Hc & _ & [(v & chain' & Hl & ->)|(Hl & ->)]);
    rewrite (wf_binding _ _ _ _ Hi Hc).
  - apply del_loop_Some in Hl as (Hold & _ & _ & _ & Hnd). rewrite Hold. simpl.
    eexists. split_and!; [done | by apply wf_set_bucket | | done].
    intros [_ Hbuckets]. destruct (Hbuckets i chain Hc) as [Hnodup _].
    change (binding (set_bucket i chain' map) key = None).
    rewrite binding_set_bucket by (by eapply lookup_lt_Some).
    rewrite decide_True by done. by apply Hnd.
  - apply del_loop_None in Hl. rewrite Hl. simpl.
    eexists. split_and!; [done | done | | done].
    intros _. change (binding map key = None).
    by rewrite (wf_binding _ _ _ _ Hi Hc).
Qed.

End Bindings.

(** ** Construction *)

Section Construction.

Implicit Types (a : abi) (env : alloc_env) (c : Z) (h : gset nat).

(** The map [initmap] returns is the empty map of the capacity asked for. *)
Lemma initmap_Some a env c h map h' :
  initmap a env c h = (Some map, h') → map = empty_map c.
Proof.
  unfold initmap, calloc, malloc.
  repeat (case_match; simplify_eq/=); congruence.
Qed.

(** Freeing the block [malloc] has just handed out restores the heap. *)
Lemma free_fresh h : free (fresh h) ({[fresh h]} ∪ h) = h.
Proof.
  pose proof (is_fresh h) as Hfresh. unfold free. apply set_eq. intros p.
  rewrite elem_of_difference, elem_of_union, !elem_of_singleton. split.
  - intros [[->|Hp] Hne]; done.
  - intros Hp. split; [by right|]. by intros ->.
Qed.

(** A failed [initmap] leaves the heap as it found it. *)
Lemma initmap_None a env c h h' :
  initmap a env c h = (None, h') → h' = h.
Proof.
  unfold initmap, calloc, malloc.
  destruct (map_ok env); [|by intros [= <-]].
  destruct (SIZE_MODULUS a <=? to_size_t a c * sizeof_ptr a);
    [intros [= <-]; apply free_fresh|].
  destruct (table_ok env); [|intros [= <-]; apply free_fresh].
  destruct (locks_ok env); [done|].
  intros [= <-]. by rewrite !free_fresh.
Qed.

(** With memory for its three blocks and a table that fits a [size_t],
    [initmap] returns a map, whatever the capacity. *)
Lemma initmap_all_ok a c h :
  to_size_t a c * sizeof_ptr a < SIZE_MODULUS a →
  (initmap a all_ok c h).1 = Some (empty_map c).
Proof.
  intros Hfit. unfold initmap, calloc, malloc. simpl.
  destruct (Z.leb_spec (SIZE_MODULUS a) (to_size_t a c * sizeof_ptr a)); [lia|done].
Qed.

(** A negative capacity, converted to [size_t], asks [calloc] for more than
    a [size_t] can count. *)
Lemma initmap_negative a env c h :
  32 ≤ size_bits a → 2 ≤ sizeof_ptr a → - 2147483648 ≤ c < 0 →
  (initmap a env c h).1 = None.
Proof.
  intros Hbits Hptr Hc.
  assert (2 ^ 32 ≤ SIZE_MODULUS a) as Hmod
    by (apply Z.pow_le_mono_r; lia).
  assert (to_size_t a c = c + SIZE_MODULUS a) as Hconv.
  { unfold to_size_t. symmetry. apply (Z.mod_unique _ _ (-1)); lia. }
  unfold initmap, calloc. rewrite Hconv.
  destruct (Z.leb_spec (SIZE_MODULUS a) ((c + SIZE_MODULUS a) * sizeof_ptr a)) as [_|Hlt];
    [|nia].
  unfold malloc. destruct (map_ok env); done.
Qed.

End Construction.

(** * The properties of the specification *)

Lemma wf_empty_map_4 : wf (empty_map 4).
Proof. by apply wf_empty_map. Qed.

Lemma map_inv_empty_map_4 : map_inv (empty_map 4).
Proof. by apply wf_empty_map. Qed.

Example chained_map_run :
  run (empty_map 4) [Put 1 10 true; Put 5 20 true; Put (-3) 7 true]
  = Some chained_map.
Proof. reflexivity. Qed.

Lemma map_inv_chained_map : map_inv chained_map.
Proof.
  destruct (run_inv (empty_map 4) [Put 1 10 true; Put 5 20 true; Put (-3) 7 true]
              map_inv_empty_map_4) as (map & Hrun & Hinv & _).
  rewrite chained_map_run in Hrun. by injection Hrun as <-.
Qed.

Lemma wf_chained_map : wf chained_map.
Proof. exact (proj1 map_inv_chained_map). Qed.

(** C1 (read after write).  On a well-formed map, a [put map key value] that
    is not cut short by a failed allocation ([malloc] succeeds, or the key is
    already bound and no allocation is made) returns, and after it [get map
    key] returns [value]; it still does after any further calls that are not
    a [put] or a [del] on [key]. *)
Theorem read_after_write map key value malloc_ok ops :
  wf map →
  malloc_ok = true ∨ is_Some (binding map key) →
  forallb (λ o, negb (mutates key o)) ops = true →
  ∃ r map1 map2 map3,
    put map key value malloc_ok = Some (r, map1) ∧
    run map1 ops = Some map2 ∧
    get map2 key = Some (value, map3).
Proof.
  intros Hwf Hok Hops.
  assert (∃ r map1, put map key value malloc_ok = Some (r, map1) ∧ wf map1 ∧
                    binding map1 key = Some value) as (r & map1 & Hput & Hwf1 & Hb1).
  { destruct Hok as [->|[old Hold]].
    - destruct (put_binding map key value Hwf) as (map1 & ? & ? & ?). eauto.
    - destruct (put_replace map key value old malloc_ok Hwf Hold) as (map1 & ? & ? & ?).
      eauto. }
  destruct (run_frame map1 ops key Hwf1 Hops) as (map2 & Hrun & Hwf2 & Hb2).
  exists r, map1, map2, (count_gets (count_numOps map2)).
  split_and!; [done | done |].
  rewrite get_binding by done. by rewrite Hb2, Hb1.
Qed.

Lemma read_after_write_witness :
  ∃ r map1 map2 map3,
    put (empty_map 4) 1 10 true = Some (r, map1) ∧
    run map1 [Put 5 20 true; Get 1; Del 2] = Some map2 ∧
    get map2 1 = Some (10, map3).
Proof.
  apply (read_after_write (empty_map 4) 1 10 true [Put 5 20 true; Get 1; Del 2]).
  - exact wf_empty_map_4.
  - left. reflexivity.
  - reflexivity.
Defined.

(** C2 (insert against replace).  On a well-formed map that holds no entry
    for [key], [put map key v1] (given memory) returns [INT_MAX], the value
    that tells the key was new; the next [put map key v2], with no [put] or
    [del] on [key] in between, returns [v1]. *)
Theorem insert_then_replace map key v1 v2 malloc_ok ops :
  wf map →
  has_key map key = false →
  forallb (λ o, negb (mutates key o)) ops = true →
  ∃ map1 map2 map3,
    put map key v1 true = Some (INT_MAX, map1) ∧
    run map1 ops = Some map2 ∧
    put map2 key v2 malloc_ok = Some (v1, map3).
Proof.
  intros Hwf Hnew Hops.
  pose proof (has_key_false_binding map key Hwf Hnew) as Hb.
  destruct (put_insert map key v1 Hwf Hb) as (map1 & Hput & Hwf1 & Hb1).
  destruct (run_frame map1 ops key Hwf1 Hops) as (map2 & Hrun & Hwf2 & Hb2).
  rewrite Hb1 in Hb2.
  destruct (put_replace map2 key v2 v1 malloc_ok Hwf2 Hb2) as (map3 & Hput2 & _).
  eauto 10.
Qed.

Lemma insert_then_replace_witness :
  ∃ map1 map2 map3,
    put (empty_map 4) 1 10 true = Some (INT_MAX, map1) ∧
    run map1 [Put 5 20 true; Get 1] = Some map2 ∧
    put map2 1 11 false = Some (10, map3).
Proof.
  apply (insert_then_replace (empty_map 4) 1 10 11 false [Put 5 20 true; Get 1]).
  - exact wf_empty_map_4.
  - reflexivity.
  - reflexivity.
Defined.

(** C3 (delete).  On a map that satisfies the bucket invariant: after a
    [put map key value] that is given memory, and any further calls that are
    not a [put] or a [del] on [key], [del map key] returns [value] and the
    following [get map key] returns [INT_MAX], the value for a key that is
    not found, the map holding no entry for [key] any more; and when the map
    holds no entry for [key], [del map key] returns [INT_MAX] and leaves
    [size] and the table as they were. *)
Theorem delete_correct map key value ops :
  map_inv map →
  forallb (λ o, negb (mutates key o)) ops = true →
  (∃ r map1 map2 map3 map4,
     put map key value true = Some (r, map1) ∧
     run map1 ops = Some map2 ∧
     del map2 key = Some (value, map3) ∧
     get map3 key = Some (INT_MAX, map4) ∧
     has_key map3 key = false) ∧
  (has_key map key = false →
   ∃ map', del map key = Some (INT_MAX, map') ∧
           size map' = size map ∧ table map' = table map).
Proof.
  intros Hinv Hops. pose proof Hinv as [Hwf _]. split.
  - destruct (step_effect map (Put key value true) Hinv)
      as (r & map1 & Hput & Hinv1 & _). simpl in Hput.
    destruct (put_binding map key value Hwf) as (map1' & Hput' & Hwf1 & Hb1).
    rewrite Hput in Hput'. injection Hput' as Hr <-.
    destruct (run_frame map1 ops key Hwf1 Hops) as (map2 & Hrun & Hwf2 & Hb2).
    destruct (run_inv map1 ops Hinv1) as (map2' & Hrun' & Hinv2 & _).
    rewrite Hrun in Hrun'. injection Hrun' as <-.
    destruct (step_effect map2 (Del key) Hinv2)
      as (r3 & map3 & Hdel & Hinv3 & _). simpl in Hdel.
    destruct (del_binding map2 key Hwf2) as (map3' & Hdel' & Hwf3 & Hb3 & _).
    rewrite Hdel in Hdel'. injection Hdel' as Hr3 <-.
    rewrite Hb2, Hb1 in Hr3. simpl in Hr3. subst r3.
    specialize (Hb3 Hinv2).
    exists r, map1, map2, map3, (count_gets (count_numOps map3)).
    split_and!; [done | done | done | |].
    + rewrite get_binding by done. by rewrite Hb3.
    + rewrite has_key_binding by done. rewrite Hb3.
      apply bool_decide_eq_false. by intros [? ?].
  - intros Hnew. pose proof (has_key_false_binding map key Hwf Hnew) as Hb.
    destruct (del_binding map key Hwf) as (map' & Hdel & _ & _ & Hsame).
    rewrite Hb in Hdel. simpl in Hdel. rewrite (Hsame Hb) in Hdel.
    eexists. split_and!; [exact Hdel | done | done].
Qed.

Lemma delete_correct_witness :
  (∃ r map1 map2 map3 map4,
     put (empty_map 4) 5 20 true = Some (r, map1) ∧
     run map1 [Put 1 10 true; Get 5] = Some map2 ∧
     del map2 5 = Some (20, map3) ∧
     get map3 5 = Some (INT_MAX, map4) ∧
     has_key map3 5 = false) ∧
  (has_key (empty_map 4) 5 = false →
   ∃ map', del (empty_map 4) 5 = Some (INT_MAX, map') ∧
           size map' = size (empty_map 4) ∧ table map' = table (empty_map 4)).
Proof.
  apply (delete_correct (empty_map 4) 5 20 [Put 1 10 true; Get 5]).
  - exact map_inv_empty_map_4.
  - reflexivity.
Defined.

(** C4 (bucket invariant).  From a map that [initmap] returned for a positive
    capacity [c], every sequence of calls runs to the end, and in the map it
    leaves no bucket chain holds a key twice, every entry of bucket [i] has
    [(unsigned) key mod c = i], and no key occurs twice in the whole map. *)
Theorem bucket_invariant a env c h map0 h' ops :
  initmap a env c h = (Some map0, h') →
  0 < c ≤ INT_MAX →
  ∃ map,
    run map0 ops = Some map ∧
    capacity map = c ∧
    (∀ (i : nat) (chain : list ts_entry_t),
       table map !! i = Some chain →
       NoDup (entry_key <$> chain) ∧
       Forall (λ e, to_unsigned (entry_key e) mod c = Z.of_nat i) chain) ∧
    NoDup (entry_key <$> concat (table map)).
Proof.
  intros ->%initmap_Some Hc.
  destruct (run_inv (empty_map c) ops (wf_empty_map c Hc))
    as (map & Hrun & [Hwf Hbuckets] & Hcap).
  simpl in Hcap. rewrite Hcap in Hbuckets.
  exists map. split_and!; [done | done | exact Hbuckets |].
  apply (NoDup_concat_keys (λ key, Z.to_nat (to_unsigned key mod c)) _ 0).
  intros i chain Hi. destruct (Hbuckets i chain Hi) as [Hnd Hroute].
  split; [done|]. eapply Forall_impl; [exact Hroute|].
  simpl. intros e ->. lia.
Qed.

Lemma bucket_invariant_witness :
  ∃ map,
    run (empty_map 4) scenario = Some map ∧
    capacity map = 4 ∧
    (∀ (i : nat) (chain : list ts_entry_t),
       table map !! i = Some chain →
       NoDup (entry_key <$> chain) ∧
       Forall (λ e, to_unsigned (entry_key e) mod 4 = Z.of_nat i) chain) ∧
    NoDup (entry_key <$> concat (table map)).
Proof.
  apply (bucket_invariant lp64 all_ok 4 ∅ (empty_map 4)
           (initmap lp64 all_ok 4 ∅).2 scenario).
  - vm_compute. reflexivity.
  - unfold INT_MAX. lia.
Defined.

(** C5 (size identity).  From a map that [initmap] returned for a positive
    capacity, every sequence of calls runs to the end.  In the map it leaves,
    the sum of the chain lengths over all buckets is the number of puts that
    added an entry minus the number of deletes that removed one, and [size]
    holds that number as a 32-bit [int]: as long as the map holds at most
    [INT_MAX] entries, the most an [int] can count, [size] equals the
    inserts minus the removals and equals the sum of the chain lengths. *)
Theorem size_identity a env c h map0 h' ops :
  initmap a env c h = (Some map0, h') →
  0 < c ≤ INT_MAX →
  ∃ map,
    run map0 ops = Some map ∧
    entries map = tally is_insert map0 ops - tally is_removal map0 ops ∧
    size map = int_wrap (entries map) ∧
    (entries map ≤ INT_MAX →
     size map = tally is_insert map0 ops - tally is_removal map0 ops ∧
     size map = entries map).
Proof.
  intros ->%initmap_Some Hc.
  destruct (run_inv (empty_map c) ops (wf_empty_map c Hc)) as (map & Hrun & _).
  destruct (fresh_size c ops map Hc Hrun) as [Hsize Hent].
  exists map. split_and!; [done | done | done |].
  intros Hfit. rewrite int_wrap_exact in Hsize; [lia|].
  unfold entries in *. lia.
Qed.

Lemma size_identity_witness :
  ∃ map,
    run (empty_map 4) scenario = Some map ∧
    entries map
    = tally is_insert (empty_map 4) scenario
      - tally is_removal (empty_map 4) scenario ∧
    size map = int_wrap (entries map) ∧
    (entries map ≤ INT_MAX →
     size map
     = tally is_insert (empty_map 4) scenario
       - tally is_removal (empty_map 4) scenario ∧
     size map = entries map).
Proof.
  apply (size_identity lp64 all_ok 4 ∅ (empty_map 4)
           (initmap lp64 all_ok 4 ∅).2 scenario).
  - vm_compute. reflexivity.
  - unfold INT_MAX. lia.
Defined.

(** C6, as the claim states it, fails: a [put] of a new key whose [malloc]
    returns a null pointer counts in [numOps] and in no outcome counter. *)
Lemma counter_identity_counterexample :
  (initmap lp64 all_ok 4 ∅).1 = Some (empty_map 4) ∧
  ∃ map,
    run (empty_map 4) [Put 1 10 false] = Some map ∧
    numOps map = 1 ∧
    gets map + put_adds map + put_reps map + del_succ map + del_fail map = 0 ∧
    numOps map
    ≠ gets map + put_adds map + put_reps map + del_succ map + del_fail map.
Proof.
  split; [vm_compute; reflexivity|].
  eexists. split; [reflexivity|]. vm_compute. split_and!; [done | done | done].
Qed.

(** C6 (counter identity), amended.  From a map that [initmap] returned for
    a positive capacity, every sequence of calls runs to the end and leaves
    in [numOps] the number of calls, as a 32-bit [int].  As long as that
    number is at most [INT_MAX], [numOps] is the sum of the five outcome
    counters plus the number of puts that gave up on a failed allocation;
    without such a put, [numOps] is the sum of the five. *)
Theorem counter_identity a env c h map0 h' ops :
  initmap a env c h = (Some map0, h') →
  0 < c ≤ INT_MAX →
  ∃ map,
    run map0 ops = Some map ∧
    numOps map = int_wrap (Z.of_nat (length ops)) ∧
    (Z.of_nat (length ops) ≤ INT_MAX →
     numOps map = Z.of_nat (length ops) ∧
     numOps map
     = gets map + put_adds map + put_reps map + del_succ map + del_fail map
       + tally is_aborted map0 ops ∧
     (tally is_aborted map0 ops = 0 →
      numOps map
      = gets map + put_adds map + put_reps map + del_succ map + del_fail map)).
Proof.
  intros ->%initmap_Some Hc.
  destruct (run_inv (empty_map c) ops (wf_empty_map c Hc)) as (map & Hrun & _).
  destruct (fresh_counters c ops map Hc Hrun) as (Hn & Hg & Ha & Hr & Hs & Hf).
  pose proof (tally_partition _ _ _ Hrun) as Hsum.
  exists map. split_and!; [done | done |]. intros Hfit.
  pose proof (tally_bounds is_get (empty_map c) ops).
  pose proof (tally_bounds is_insert (empty_map c) ops).
  pose proof (tally_bounds is_replace (empty_map c) ops).
  pose proof (tally_bounds is_removal (empty_map c) ops).
  pose proof (tally_bounds is_miss (empty_map c) ops).
  rewrite int_wrap_exact in Hn, Hg, Ha, Hr, Hs, Hf by lia.
  split_and!; lia.
Qed.

Lemma counter_identity_witness :
  ∃ map,
    run (empty_map 4) (Put 9 1 false :: scenario) = Some map ∧
    numOps map = int_wrap (Z.of_nat (length (Put 9 1 false :: scenario))) ∧
    (Z.of_nat (length (Put 9 1 false :: scenario)) ≤ INT_MAX →
     numOps map = Z.of_nat (length (Put 9 1 false :: scenario)) ∧
     numOps map
     = gets map + put_adds map + put_reps map + del_succ map + del_fail map
       + tally is_aborted (empty_map 4) (Put 9 1 false :: scenario) ∧
     (tally is_aborted (empty_map 4) (Put 9 1 false :: scenario) = 0 →
      numOps map
      = gets map + put_adds map + put_reps map + del_succ map
        + del_fail map)).
Proof.
  apply (counter_identity lp64 all_ok 4 ∅ (empty_map 4)
           (initmap lp64 all_ok 4 ∅).2 (Put 9 1 false :: scenario)).
  - vm_compute. reflexivity.
  - unfold INT_MAX. lia.
Defined.

(** C7, as the claim states it, fails: the value [put] returns when [malloc]
    fails is [INT_MAX], the very value it returns when the key was new. *)
Lemma put_alloc_failure_counterexample :
  (initmap lp64 all_ok 4 ∅).1 = Some (empty_map 4) ∧
  has_key (empty_map 4) 1 = false ∧
  fst <$> put (empty_map 4) 1 10 false = Some INT_MAX ∧
  fst <$> put (empty_map 4) 1 10 true = Some INT_MAX ∧
  ¬ (fst <$> put (empty_map 4) 1 10 false ≠ fst <$> put (empty_map 4) 1 10 true).
Proof.
  split; [vm_compute; reflexivity|].
  split_and!; [done | done | done |]. intros Hne. by apply Hne.
Qed.

(** C7 (allocation failure in [put]), amended.  On a well-formed map that
    holds no entry for [key], a [put] whose [malloc] returns a null pointer
    leaves the table, [size] and the five outcome counters as they were,
    increments [numOps] once and returns [INT_MAX], the value a [put] that
    adds the key returns as well. *)
Theorem put_alloc_failure map key value :
  wf map →
  has_key map key = false →
  ∃ map' map'',
    put map key value false = Some (INT_MAX, map') ∧
    table map' = table map ∧
    size map' = size map ∧
    numOps map' = int_incr (numOps map) ∧
    (gets map', put_adds map', put_reps map', del_succ map', del_fail map')
    = (gets map, put_adds map, put_reps map, del_succ map, del_fail map) ∧
    put map key value true = Some (INT_MAX, map'').
Proof.
  intros Hwf Hnew. pose proof (has_key_false_binding map key Hwf Hnew) as Hb.
  destruct (put_insert map key value Hwf Hb) as (map'' & Hput & _).
  exists (count_numOps map), map''.
  rewrite (put_abort map key value Hwf Hb). done.
Qed.

Lemma put_alloc_failure_witness :
  ∃ map' map'',
    put (empty_map 4) 1 10 false = Some (INT_MAX, map') ∧
    table map' = table (empty_map 4) ∧
    size map' = size (empty_map 4) ∧
    numOps map' = int_incr (numOps (empty_map 4)) ∧
    (gets map', put_adds map', put_reps map', del_succ map', del_fail map')
    = (gets (empty_map 4), put_adds (empty_map 4), put_reps (empty_map 4),
       del_succ (empty_map 4), del_fail (empty_map 4)) ∧
    put (empty_map 4) 1 10 true = Some (INT_MAX, map'').
Proof.
  apply (put_alloc_failure (empty_map 4) 1 10).
  - exact wf_empty_map_4.
  - reflexivity.
Defined.

(** C8, as the claim states it, fails: [initmap] does not look at its
    argument, and for the capacity 0 it returns a map when its allocations
    succeed; a map of no bucket, on which no key routes anywhere. *)
Lemma initmap_failure_counterexample :
  0 ≤ 0 ∧
  (initmap lp64 all_ok 0 ∅).1 = Some (empty_map 0) ∧
  (initmap lp64 all_ok 0 ∅).1 ≠ None ∧
  get (empty_map 0) 1 = None.
Proof. vm_compute. split_and!; done. Qed.

(** C8 (failure of [initmap]), amended.  [initmap] has no check of its
    capacity argument [c], an [int].  For [c < 0] it returns the null pointer
    all the same, because [calloc] cannot grant the table; for [c = 0] it
    returns a map of no bucket when its allocations succeed.  When one of its
    three allocations fails it returns the null pointer, and whenever it
    returns the null pointer the blocks it had allocated are freed: the heap
    is as before the call. *)
Theorem initmap_failure a env c h :
  32 ≤ size_bits a →
  2 ≤ sizeof_ptr a →
  - 2147483648 ≤ c ≤ INT_MAX →
  (c < 0 → (initmap a env c h).1 = None) ∧
  (c = 0 → (initmap a all_ok c h).1 = Some (empty_map 0)) ∧
  (map_ok env = false ∨ table_ok env = false ∨ locks_ok env = false →
   (initmap a env c h).1 = None) ∧
  ((initmap a env c h).1 = None → (initmap a env c h).2 = h).
Proof.
  intros Hbits Hptr Hc. split_and!.
  - intros Hneg. apply initmap_negative; [done | done | lia].
  - intros ->. apply initmap_all_ok.
    unfold to_size_t, SIZE_MODULUS. rewrite Z.mod_0_l by lia.
    apply Z.pow_pos_nonneg; lia.
  - intros Hfail. unfold initmap, calloc, malloc.
    destruct (map_ok env); [|done].
    destruct (SIZE_MODULUS a <=? to_size_t a c * sizeof_ptr a); [done|].
    destruct (table_ok env); [|done].
    destruct (locks_ok env); [|done].
    destruct Hfail as [?|[?|?]]; done.
  - intros Hnone. destruct (initmap a env c h) as [[map|] h'] eqn:Hinit; [done|].
    simpl. by eapply initmap_None.
Qed.

Lemma initmap_failure_witness :
  (-1 < 0 → (initmap lp64 (mk_env true true false) (-1) ∅).1 = None) ∧
  (-1 = 0 → (initmap lp64 all_ok (-1) ∅).1 = Some (empty_map 0)) ∧
  (map_ok (mk_env true true false) = false
   ∨ table_ok (mk_env true true false) = false
   ∨ locks_ok (mk_env true true false) = false →
   (initmap lp64 (mk_env true true false) (-1) ∅).1 = None) ∧
  ((initmap lp64 (mk_env true true false) (-1) ∅).1 = None →
   (initmap lp64 (mk_env true true false) (-1) ∅).2 = ∅).
Proof.
  apply (initmap_failure lp64 (mk_env true true false) (-1) ∅).
  - simpl. lia.
  - simpl. lia.
  - unfold INT_MAX. lia.
Defined.

(** C9, as the claim states it, fails: with [numOps] zero, [freeMap] divides
    by zero all the same, in floating point, and the percentage it prints for
    a zero count is a NaN, which is not 0. *)
Lemma report_zero_ops_counterexample :
  numOps (empty_map 4) = 0 ∧
  gets (empty_map 4) = 0 ∧
  PrimFloat.is_nan (pct_gets (freeMap_report (empty_map 4))) = true ∧
  pct_gets (freeMap_report (empty_map 4)) ≠ 0%float.
Proof.
  split_and!; [done | done | vm_compute; reflexivity |].
  intros Heq. apply (f_equal PrimFloat.is_nan) in Heq.
  vm_compute in Heq. discriminate.
Qed.

(** C9 (report with no operation), amended.  When [numOps] is zero, each
    percentage of the report is the floating-point quotient
    [(count * 100.0) / 0]: for a category whose count is zero, a NaN.  The
    totals of the report are the fields of the map. *)
Theorem report_zero_ops map :
  numOps map = 0 →
  (gets map = 0 → PrimFloat.is_nan (pct_gets (freeMap_report map)) = true) ∧
  (put_adds map = 0 →
   PrimFloat.is_nan (pct_put_adds (freeMap_report map)) = true) ∧
  (put_reps map = 0 →
   PrimFloat.is_nan (pct_put_reps (freeMap_report map)) = true) ∧
  (del_succ map = 0 →
   PrimFloat.is_nan (pct_del_succ (freeMap_report map)) = true) ∧
  (del_fail map = 0 →
   PrimFloat.is_nan (pct_del_fail (freeMap_report map)) = true) ∧
  total_ops (freeMap_report map) = 0 ∧
  map_size (freeMap_report map) = size map.
Proof.
  intros Hzero. unfold freeMap_report. simpl. rewrite Hzero.
  split_and!; try done; intros ->; vm_compute; reflexivity.
Qed.

Lemma report_zero_ops_witness :
  (gets (empty_map 4) = 0 →
   PrimFloat.is_nan (pct_gets (freeMap_report (empty_map 4))) = true) ∧
  (put_adds (empty_map 4) = 0 →
   PrimFloat.is_nan (pct_put_adds (freeMap_report (empty_map 4))) = true) ∧
  (put_reps (empty_map 4) = 0 →
   PrimFloat.is_nan (pct_put_reps (freeMap_report (empty_map 4))) = true) ∧
  (del_succ (empty_map 4) = 0 →
   PrimFloat.is_nan (pct_del_succ (freeMap_report (empty_map 4))) = true) ∧
  (del_fail (empty_map 4) = 0 →
   PrimFloat.is_nan (pct_del_fail (freeMap_report (empty_map 4))) = true) ∧
  total_ops (freeMap_report (empty_map 4)) = 0 ∧
  map_size (freeMap_report (empty_map 4)) = size (empty_map 4).
Proof.
  apply (report_zero_ops (empty_map 4)). reflexivity.
Defined.

(** C10 (in-band sentinel).  [INT_MAX] is at once the value [get] and [del]
    return for a key that is not found, the value [put] returns for a key
    that was new, and a value that can be stored: on a well-formed map, after
    [put map key INT_MAX] is given memory, the table holds the entry
    [(key, INT_MAX)] and binds [key] to [INT_MAX], and [get map key] and
    [del map key] return [INT_MAX], which is what they return on a map that
    holds no entry for [key]. *)
Theorem in_band_sentinel map key value :
  wf map →
  (∃ r map1 map2 map3,
     put map key INT_MAX true = Some (r, map1) ∧
     binding map1 key = Some INT_MAX ∧
     has_key map1 key = true ∧
     mk_entry key INT_MAX ∈ concat (table map1) ∧
     get map1 key = Some (INT_MAX, map2) ∧
     del map1 key = Some (INT_MAX, map3)) ∧
  (has_key map key = false →
   ∃ map1 map2 map3,
     get map key = Some (INT_MAX, map1) ∧
     del map key = Some (INT_MAX, map2) ∧
     put map key value true = Some (INT_MAX, map3)).
Proof.
  intros Hwf. split.
  - destruct (put_binding map key INT_MAX Hwf) as (map1 & Hput & Hwf1 & Hb1).
    destruct (del_binding map1 key Hwf1) as (map3 & Hdel & _).
    destruct (binding_entry map1 key INT_MAX Hb1) as [Hin Hhas].
    rewrite Hb1 in Hdel. simpl in Hdel.
    eexists _, map1, _, map3. split_and!; [done | done | done | done | | done].
    rewrite get_binding by done. by rewrite Hb1.
  - intros Hnew. pose proof (has_key_false_binding map key Hwf Hnew) as Hb.
    destruct (del_binding map key Hwf) as (map2 & Hdel & _).
    destruct (put_insert map key value Hwf Hb) as (map3 & Hput & _).
    rewrite Hb in Hdel. simpl in Hdel.
    eexists _, map2, map3. split_and!; [| done | done].
    rewrite get_binding by done. by rewrite Hb.
Qed.

Lemma in_band_sentinel_witness :
  (∃ r map1 map2 map3,
     put chained_map 9 INT_MAX true = Some (r, map1) ∧
     binding map1 9 = Some INT_MAX ∧
     has_key map1 9 = true ∧
     mk_entry 9 INT_MAX ∈ concat (table map1) ∧
     get map1 9 = Some (INT_MAX, map2) ∧
     del map1 9 = Some (INT_MAX, map3)) ∧
  (has_key chained_map 9 = false →
   ∃ map1 map2 map3,
     get chained_map 9 = Some (INT_MAX, map1) ∧
     del chained_map 9 = Some (INT_MAX, map2) ∧
     put chained_map 9 0 true = Some (INT_MAX, map3)).
Proof.
  apply (in_band_sentinel chained_map 9 0). exact wf_chained_map.
Defined.

(** The sentinel, evaluated: the key 9 is absent from the chained map and
    stored with the value [INT_MAX]; [get] answers the same both times. *)
Example in_band_sentinel_evaluated :
  has_key chained_map 9 = false ∧
  fst <$> get chained_map 9 = Some INT_MAX ∧
  (put chained_map 9 INT_MAX true ≫= λ '(_, map1),
     Some (has_key map1 9, table map1 !! 1%nat))
  = Some (true, Some [mk_entry 1 10; mk_entry 5 20; mk_entry (-3) 7;
                      mk_entry 9 INT_MAX]) ∧
  (put chained_map 9 INT_MAX true ≫= λ '(_, map1), fst <$> get map1 9)
  = Some INT_MAX.
Proof. split_and!; reflexivity. Qed.

(** * Further properties of the code *)

(** ** The map as a finite function *)

Section Contents.

Implicit Types (map : ts_hashmap_t) (key value : Z) (chain : list ts_entry_t).

Lemma elem_chain_lookup key value chain :
  NoDup (entry_key <$> chain) → mk_entry key value ∈ chain →
  chain_lookup key chain = Some value.
Proof.
  induction chain as [|e next IH]; simpl; [by intros _ ?%elem_of_nil|].
  intros [Hnotin Hnd]%NoDup_cons [<-|Hin]%elem_of_cons.
  - simpl. by rewrite Z.eqb_refl.
  - destruct (Z.eqb_spec (entry_key e) key) as [Hk|Hk]; [|by apply IH].
    exfalso. apply Hnotin, list_elem_of_fmap. exists (mk_entry key value). done.
Qed.

Lemma map_inv_NoDup map :
  map_inv map → NoDup (entry_key <$> concat (table map)).
Proof.
  intros [Hwf Hbuckets].
  apply (NoDup_concat_keys
           (λ key, Z.to_nat (to_unsigned key mod capacity map)) _ 0).
  intros i chain Hi. destruct (Hbuckets i chain Hi) as [Hnd Hroute].
  split; [done|]. eapply Forall_impl; [exact Hroute|].
  simpl. intros e ->. lia.
Qed.

(** Under the bucket invariant the bindings read off the whole table are
    those the routed lookup finds. *)
Lemma contents_binding map key :
  map_inv map → contents map !! key = binding map key.
Proof.
  intros Hinv. pose proof Hinv as [Hwf Hbuckets].
  pose proof (map_inv_NoDup map Hinv) as Hnd.
  destruct (wf_bucket map key Hwf) as (i & chain & Hi & Hc & Hr).
  rewrite (wf_binding _ _ _ _ Hi Hc).
  apply option_eq. intros value. unfold contents.
  rewrite <- elem_of_list_to_map
    by (by rewrite <- list_fmap_compose).
  rewrite list_elem_of_fmap. split.
  - intros (e & [= -> ->] & [j [chain' [Hj He]]]%elem_of_concat).
    destruct (Hbuckets j chain' Hj) as [Hnd' Hroute].
    rewrite Forall_forall in Hroute. specialize (Hroute _ He). simpl in Hroute.
    assert (j = i) as -> by lia.
    rewrite Hc in Hj. injection Hj as <-.
    apply elem_chain_lookup; [by apply (Hbuckets i chain)|].
    by destruct e.
  - intros He%chain_lookup_elem. exists (mk_entry key value). split; [done|].
    apply elem_of_concat. eauto.
Qed.

End Contents.

Section Refinement.

Implicit Types (map : ts_hashmap_t) (key value : Z) (o : op).

(** A call keeps the bucket invariant and the bindings of the keys it does
    not mutate. *)
Lemma step_contents_frame map o r map' :
  map_inv map → step map o = Some (r, map') →
  map_inv map' ∧
  ∀ key, mutates key o = false → contents map' !! key = contents map !! key.
Proof.
  intros Hinv Hstep.
  destruct (step_effect map o Hinv) as (r1 & map1 & Hstep1 & Hinv1 & _).
  rewrite Hstep in Hstep1. injection Hstep1 as <- <-.
  split; [done|]. intros key Hmut.
  destruct (step_frame map o key (proj1 Hinv) Hmut) as (r2 & map2 & Hstep2 & _ & Hb).
  rewrite Hstep in Hstep2. injection Hstep2 as <- <-.
  by rewrite !contents_binding.
Qed.

(** Every call does to the bindings what [model_step] does to a finite
    function, and returns what it returns. *)
Lemma step_refines map o :
  map_inv map →
  ∃ r map',
    step map o = Some (r, map') ∧ map_inv map' ∧
    model_step (contents map) o = (r, contents map').
Proof.
  intros Hinv. pose proof Hinv as [Hwf _].
  destruct (step_effect map o Hinv) as (r & map' & Hstep & Hinv' & _).
  exists r, map'. split_and!; [done | done |].
  destruct (step_contents_frame map o r map' Hinv Hstep) as [_ Hframe].
  destruct o as [key|key value malloc_ok|key]; simpl in *.
  - rewrite get_binding in Hstep by done. injection Hstep as <- <-.
    by rewrite contents_binding.
  - rewrite (contents_binding map key Hinv).
    destruct (binding map key) as [old|] eqn:Hb; simpl.
    + destruct (put_replace map key value old malloc_ok Hwf Hb) as (map1 & Hput & _ & Hb1).
      rewrite Hstep in Hput. injection Hput as -> <-.
      rewrite orb_true_r. f_equal. apply map_eq. intros key'.
      rewrite lookup_insert. case_decide as Hk.
      * subst key'. by rewrite contents_binding.
      * symmetry. apply Hframe. by apply Z.eqb_neq.
    + destruct malloc_ok; simpl.
      * destruct (put_insert map key value Hwf Hb) as (map1 & Hput & _ & Hb1).
        rewrite Hstep in Hput. injection Hput as -> <-.
        f_equal. apply map_eq. intros key'.
        rewrite lookup_insert. case_decide as Hk.
        -- subst key'. by rewrite contents_binding.
        -- symmetry. apply Hframe. by apply Z.eqb_neq.
      * rewrite (put_abort map key value Hwf Hb) in Hstep.
        injection Hstep as <- <-. done.
  - rewrite (contents_binding map key Hinv).
    destruct (del_binding map key Hwf) as (map1 & Hdel & _ & Hb1 & _).
    rewrite Hstep in Hdel. injection Hdel as -> <-.
    f_equal. apply map_eq. intros key'.
    rewrite lookup_delete. case_decide as Hk.
    + subst key'. rewrite contents_binding by done. symmetry. by apply Hb1.
    + symmetry. apply Hframe. by apply Z.eqb_neq.
Qed.

End Refinement.

(** X1 ([put] is insertion).  On a map that satisfies the bucket invariant,
    [put map key value] returns the value [key] was bound to, or [INT_MAX]
    when it was bound to none, and keeps the invariant.  When [malloc]
    succeeds or [key] is already bound, the bindings afterwards are those
    before with [key] bound to [value]; when [key] is new and [malloc] fails
    they are unchanged. *)
Theorem put_is_insert map key value malloc_ok :
  map_inv map →
  ∃ map',
    put map key value malloc_ok
    = Some (default INT_MAX (contents map !! key), map') ∧
    map_inv map' ∧
    (malloc_ok = true ∨ is_Some (contents map !! key) →
     contents map' = <[key := value]> (contents map)) ∧
    (malloc_ok = false → contents map !! key = None →
     contents map' = contents map).
Proof.
  intros Hinv.
  destruct (step_refines map (Put key value malloc_ok) Hinv)
    as (r & map' & Hstep & Hinv' & Hmodel).
  simpl in Hstep. unfold model_step in Hmodel. injection Hmodel as <- Hc.
  exists map'. split_and!; [done | done | |].
  - intros Hok. rewrite <- Hc.
    destruct Hok as [->|Hsome]; [done|].
    by rewrite (bool_decide_eq_true_2 _ Hsome), orb_true_r.
  - intros -> Hnone. rewrite <- Hc.
    rewrite bool_decide_eq_false_2; [done|]. rewrite Hnone. by intros [? ?].
Qed.

Lemma put_is_insert_witness :
  ∃ map',
    put (empty_map 4) 1 10 true
    = Some (default INT_MAX (contents (empty_map 4) !! 1), map') ∧
    map_inv map' ∧
    (true = true ∨ is_Some (contents (empty_map 4) !! 1) →
     contents map' = <[1 := 10]> (contents (empty_map 4))) ∧
    (true = false → contents (empty_map 4) !! 1 = None →
     contents map' = contents (empty_map 4)).
Proof.
  apply (put_is_insert (empty_map 4) 1 10 true). exact map_inv_empty_map_4.
Defined.

(** X2 ([del] is deletion).  On a map that satisfies the bucket invariant,
    [del map key] returns the value [key] was bound to, or [INT_MAX] when it
    was bound to none, keeps the invariant, and leaves the bindings of before
    without the one of [key]. *)
Theorem del_is_delete map key :
  map_inv map →
  ∃ map',
    del map key = Some (default INT_MAX (contents map !! key), map') ∧
    map_inv map' ∧
    contents map' = delete key (contents map).
Proof.
  intros Hinv.
  destruct (step_refines map (Del key) Hinv) as (r & map' & Hstep & Hinv' & Hmodel).
  simpl in Hstep, Hmodel. injection Hmodel as <- Hc.
  exists map'. split_and!; done.
Qed.

Lemma del_is_delete_witness :
  ∃ map',
    del chained_map 5
    = Some (default INT_MAX (contents chained_map !! 5), map') ∧
    map_inv map' ∧
    contents map' = delete 5 (contents chained_map).
Proof.
  apply (del_is_delete chained_map 5). exact map_inv_chained_map.
Defined.

(** The same call, evaluated: the middle entry of the chain goes, its value
    is returned and the key is bound no more. *)
Example del_is_delete_evaluated :
  contents chained_map !! 5 = Some 20 ∧
  (del chained_map 5 ≫= λ '(r, map'),
     Some (r, table map' !! 1%nat, contents map' !! 5, contents map' !! 1))
  = Some (20, Some [mk_entry 1 10; mk_entry (-3) 7], None, Some 10).
Proof. split; vm_compute; reflexivity. Qed.

(** X3 ([get] is lookup).  On a map that satisfies the bucket invariant,
    [get map key] returns the value of the one entry of the whole table that
    carries [key], or [INT_MAX] when there is none, and changes neither the
    table nor [size]. *)
Theorem get_is_lookup map key :
  map_inv map →
  ∃ map',
    get map key = Some (default INT_MAX (contents map !! key), map') ∧
    table map' = table map ∧ size map' = size map ∧
    (∀ value, contents map !! key = Some value ↔
              mk_entry key value ∈ concat (table map)).
Proof.
  intros Hinv. pose proof Hinv as [Hwf _].
  exists (count_gets (count_numOps map)). split_and!; [| done | done |].
  - rewrite get_binding by done. by rewrite contents_binding.
  - intros value. unfold contents.
    rewrite <- elem_of_list_to_map
      by (rewrite <- list_fmap_compose; by apply map_inv_NoDup).
    rewrite list_elem_of_fmap. split.
    + intros (e & [= -> ->] & He). by destruct e.
    + intros He. by exists (mk_entry key value).
Qed.

Lemma get_is_lookup_witness :
  ∃ map',
    get chained_map 5
    = Some (default INT_MAX (contents chained_map !! 5), map') ∧
    table map' = table chained_map ∧ size map' = size chained_map ∧
    (∀ value, contents chained_map !! 5 = Some value ↔
              mk_entry 5 value ∈ concat (table chained_map)).
Proof.
  apply (get_is_lookup chained_map 5). exact map_inv_chained_map.
Defined.

(** The same call, evaluated: the entry found is the second of its chain. *)
Example get_is_lookup_evaluated :
  contents chained_map !! 5 = Some 20 ∧
  fst <$> get chained_map 5 = Some 20 ∧
  fst <$> get chained_map (-3) = Some 7 ∧
  fst <$> get chained_map 9 = Some INT_MAX.
Proof. split_and!; vm_compute; reflexivity. Qed.

(** X4 (refinement over runs).  From a map that satisfies the bucket
    invariant, every sequence of calls runs to the end; the values the calls
    return and the bindings of the final map are those of the same sequence
    run on the finite function of the bindings. *)
Theorem run_refines map ops :
  map_inv map →
  ∃ map',
    run map ops = Some map' ∧ map_inv map' ∧
    results map ops = Some (model_run (contents map) ops).1 ∧
    contents map' = (model_run (contents map) ops).2.
Proof.
  revert map. induction ops as [|o ops IH]; intros map Hinv; simpl.
  - exists map. done.
  - destruct (step_refines map o Hinv) as (r & map1 & -> & Hinv1 & ->). simpl.
    destruct (IH map1 Hinv1) as (map' & -> & Hinv' & -> & Hc). simpl.
    exists map'. destruct (model_run (contents map1) ops) as [rs f]. done.
Qed.

Lemma run_refines_witness :
  ∃ map',
    run (empty_map 4) scenario = Some map' ∧ map_inv map' ∧
    results (empty_map 4) scenario
    = Some (model_run (contents (empty_map 4)) scenario).1 ∧
    contents map' = (model_run (contents (empty_map 4)) scenario).2.
Proof.
  apply (run_refines (empty_map 4) scenario). exact map_inv_empty_map_4.
Defined.

(** ** Counters and the number of keys *)

Section Counting.

Implicit Types (map : ts_hashmap_t) (ops : list op).

Lemma entries_keys_bound map : map_inv map → entries map = keys_bound map.
Proof.
  intros Hinv. rewrite entries_concat. unfold keys_bound, contents.
  rewrite map_size_list_to_map
    by (rewrite <- list_fmap_compose; by apply map_inv_NoDup).
  by rewrite length_fmap.
Qed.

(** The outcomes of a run, grouped by the function called. *)
Lemma tally_calls map ops map' :
  run map ops = Some map' →
  tally is_get map ops = calls is_Get_call ops ∧
  tally is_insert map ops + tally is_replace map ops + tally is_aborted map ops
  = calls is_Put_call ops ∧
  tally is_removal map ops + tally is_miss map ops = calls is_Del_call ops.
Proof.
  revert map. induction ops as [|o ops IH]; intros map Hrun; simpl in *; [done|].
  destruct (step map o) as [[r map1]|]; [|done]. simpl in Hrun.
  destruct (IH _ Hrun) as (Hg & Hp & Hd).
  destruct o as [key|key value malloc_ok|key]; simpl;
    try destruct (has_key map key); try destruct malloc_ok; simpl;
    split_and!; lia.
Qed.

Lemma calls_bounds (kind : op → bool) ops :
  0 ≤ calls kind ops ≤ Z.of_nat (length ops).
Proof.
  induction ops as [|o ops IH]; simpl; [lia|]. destruct (kind o); lia.
Qed.

End Counting.

(** X5 ([size] counts keys).  From a map that [initmap] returned for a
    positive capacity, after every sequence of calls [size] holds, as a
    32-bit [int], the number of keys that the map binds (the keys for which
    [get] finds a value): it equals that number as long as the map binds at
    most [INT_MAX] keys. *)
Theorem size_counts_keys a env c h map0 h' ops :
  initmap a env c h = (Some map0, h') →
  0 < c ≤ INT_MAX →
  ∃ map,
    run map0 ops = Some map ∧
    size map = int_wrap (keys_bound map) ∧
    (keys_bound map ≤ INT_MAX → size map = keys_bound map).
Proof.
  intros ->%initmap_Some Hc.
  destruct (run_inv (empty_map c) ops (wf_empty_map c Hc)) as (map & Hrun & Hinv & _).
  destruct (fresh_size c ops map Hc Hrun) as [Hsize _].
  rewrite (entries_keys_bound map Hinv) in Hsize.
  exists map. split_and!; [done | done |].
  intros Hfit. rewrite Hsize. apply int_wrap_exact. unfold keys_bound in *. lia.
Qed.

Lemma size_counts_keys_witness :
  ∃ map,
    run (empty_map 4) scenario = Some map ∧
    size map = int_wrap (keys_bound map) ∧
    (keys_bound map ≤ INT_MAX → size map = keys_bound map).
Proof.
  apply (size_counts_keys lp64 all_ok 4 ∅ (empty_map 4)
           (initmap lp64 all_ok 4 ∅).2 scenario).
  - vm_compute. reflexivity.
  - unfold INT_MAX. lia.
Defined.

(** X6 (the counters count the calls).  From a map that [initmap] returned
    for a positive capacity, after a sequence of at most [INT_MAX] calls:
    [gets] is the number of calls of [get]; [put_adds + put_reps], plus the
    puts that gave up on a failed allocation, is the number of calls of
    [put]; [del_succ + del_fail] is the number of calls of [del]; and
    [put_adds - del_succ] is the number of entries in the chains. *)
Theorem counters_count_calls a env c h map0 h' ops :
  initmap a env c h = (Some map0, h') →
  0 < c ≤ INT_MAX →
  Z.of_nat (length ops) ≤ INT_MAX →
  ∃ map,
    run map0 ops = Some map ∧
    gets map = calls is_Get_call ops ∧
    put_adds map + put_reps map + tally is_aborted map0 ops
    = calls is_Put_call ops ∧
    del_succ map + del_fail map = calls is_Del_call ops ∧
    put_adds map - del_succ map = entries map.
Proof.
  intros ->%initmap_Some Hc Hfit.
  destruct (run_inv (empty_map c) ops (wf_empty_map c Hc)) as (map & Hrun & _).
  destruct (fresh_counters c ops map Hc Hrun) as (_ & Hg & Ha & Hr & Hs & Hf).
  destruct (fresh_size c ops map Hc Hrun) as [_ Hent].
  destruct (tally_calls _ _ _ Hrun) as (Hgets & Hputs & Hdels).
  pose proof (tally_bounds is_get (empty_map c) ops).
  pose proof (tally_bounds is_insert (empty_map c) ops).
  pose proof (tally_bounds is_replace (empty_map c) ops).
  pose proof (tally_bounds is_removal (empty_map c) ops).
  pose proof (tally_bounds is_miss (empty_map c) ops).
  rewrite int_wrap_exact in Hg, Ha, Hr, Hs, Hf by lia.
  exists map. split_and!; [done | lia..].
Qed.

Lemma counters_count_calls_witness :
  ∃ map,
    run (empty_map 4) (Put 9 1 false :: scenario) = Some map ∧
    gets map = calls is_Get_call (Put 9 1 false :: scenario) ∧
    put_adds map + put_reps map
    + tally is_aborted (empty_map 4) (Put 9 1 false :: scenario)
    = calls is_Put_call (Put 9 1 false :: scenario) ∧
    del_succ map + del_fail map
    = calls is_Del_call (Put 9 1 false :: scenario) ∧
    put_adds map - del_succ map = entries map.
Proof.
  apply (counters_count_calls lp64 all_ok 4 ∅ (empty_map 4)
           (initmap lp64 all_ok 4 ∅).2 (Put 9 1 false :: scenario)).
  - vm_compute. reflexivity.
  - unfold INT_MAX. lia.
  - unfold INT_MAX. simpl. lia.
Defined.

(** ** Construction, once more *)



Lemma concat_replicate_nil {A : Type} (n : nat) :
  concat (replicate n ([] : list A)) = [].
Proof. induction n as [|n IH]; simpl; done. Qed.

(** X8 (a map just created).  A map that [initmap] returned for the capacity
    [c], an [int], binds no key.  For [c > 0] every call on it returns; for
    [c ≤ 0], which leaves [c = 0], no call on it is defined: each takes a
    remainder by zero. *)
Theorem fresh_map_calls a env c h map0 h' :
  32 ≤ size_bits a →
  2 ≤ sizeof_ptr a →
  - 2147483648 ≤ c ≤ INT_MAX →
  initmap a env c h = (Some map0, h') →
  0 ≤ c ∧
  contents map0 = ∅ ∧
  (0 < c → ∀ o, is_Some (step map0 o)) ∧
  (c ≤ 0 → ∀ o, step map0 o = None).
Proof.
  intros Hbits Hptr Hc Hinit.
  assert (0 ≤ c) as Hnonneg.
  { destruct (Z.lt_ge_cases c 0) as [Hneg|]; [|done].
    pose proof (initmap_negative a env c h Hbits Hptr (conj (proj1 Hc) Hneg)) as Hnone.
    rewrite Hinit in Hnone. done. }
  apply initmap_Some in Hinit as ->. split_and!; [done | | |].
  - unfold contents. simpl. by rewrite concat_replicate_nil.
  - intros Hpos o.
    destruct (step_effect (empty_map c) o (wf_empty_map c (conj Hpos (proj2 Hc))))
      as (r & map' & -> & _). eauto.
  - intros Hle o. assert (c = 0) as -> by lia.
    destruct o; reflexivity.
Qed.

Lemma fresh_map_calls_witness :
  0 ≤ 4 ∧
  contents (empty_map 4) = ∅ ∧
  (0 < 4 → ∀ o, is_Some (step (empty_map 4) o)) ∧
  (4 ≤ 0 → ∀ o, step (empty_map 4) o = None).
Proof.
  apply (fresh_map_calls lp64 all_ok 4 ∅ (empty_map 4) (initmap lp64 all_ok 4 ∅).2).
  - simpl. lia.
  - simpl. lia.
  - unfold INT_MAX. lia.
  - vm_compute. reflexivity.
Defined.

(** ** The dump *)

Example printmap_scenario :
  render <$> (run (empty_map 4) scenario ≫= printmap)
  = Some ("[0] -> " +:+ String (Ascii.ascii_of_nat 10)
          ("[1] -> (1,11)" +:+ String (Ascii.ascii_of_nat 10)
          ("[2] -> " +:+ String (Ascii.ascii_of_nat 10)
          ("[3] -> " +:+ String (Ascii.ascii_of_nat 10) EmptyString)))).
Proof. vm_compute. reflexivity. Qed.

Example printmap_chained :
  render <$> (run (empty_map 4) [Put 1 10 true; Put (-3) 7 true; Put 5 20 true]
              ≫= printmap)
  = Some ("[0] -> " +:+ String (Ascii.ascii_of_nat 10)
          ("[1] -> (1,10) -> (-3,7) -> (5,20)" +:+ String (Ascii.ascii_of_nat 10)
          ("[2] -> " +:+ String (Ascii.ascii_of_nat 10)
          ("[3] -> " +:+ String (Ascii.ascii_of_nat 10) EmptyString)))).
Proof. vm_compute. reflexivity. Qed.

Section Dump.

Implicit Types (map : ts_hashmap_t) (chain : list ts_entry_t).

Lemma printed_entries_chain chain :
  printed_entries (print_chain chain)
  = (λ e, (entry_key e, entry_value e)) <$> chain.
Proof.
  induction chain as [|e next IH]; [done|].
  unfold printed_entries in *. simpl. rewrite omap_app, IH.
  by destruct next.
Qed.

Lemma printed_buckets_chain chain : printed_buckets (print_chain chain) = [].
Proof.
  induction chain as [|e next IH]; [done|].
  unfold printed_buckets in *. simpl. rewrite omap_app, IH.
  by destruct next.
Qed.

(** The rounds of the outer loop from bucket [i] on print the buckets
    [i .. i + count - 1] and their chains. *)
Lemma printmap_loop_spec map (i count : nat) :
  (i + count ≤ length (table map))%nat →
  ∃ out,
    printmap_loop map (Z.of_nat i) count = Some out ∧
    printed_entries out
    = (λ e, (entry_key e, entry_value e))
      <$> concat (take count (drop i (table map))) ∧
    printed_buckets out = Z.of_nat <$> seq i count.
Proof.
  revert i. induction count as [|count IH]; intros i Hlen; simpl.
  - exists []. done.
  - destruct (lookup_lt_is_Some_2 (table map) i) as [chain Hc]; [lia|].
    rewrite Nat2Z.id, Hc. simpl.
    replace (Z.of_nat i + 1) with (Z.of_nat (S i)) by lia.
    destruct (IH (S i)) as (rest & -> & Hentries & Hbuckets); [lia|]. simpl.
    eexists. split; [done|].
    rewrite (drop_S _ _ _ Hc). simpl. split.
    + unfold printed_entries in *. simpl.
      rewrite omap_app. simpl. rewrite fmap_app, <- Hentries.
      f_equal. apply printed_entries_chain.
    + pose proof (printed_buckets_chain chain) as Hnone.
      unfold printed_buckets in *. simpl. f_equal.
      rewrite omap_app, Hnone. simpl. exact Hbuckets.
Qed.

End Dump.

(** X9 ([printmap] lists the table).  On a well-formed map [printmap] runs
    to the end; it prints one header per bucket, for the indices
    [0 .. capacity - 1] in increasing order, and the pairs it prints are the
    entries of the table, bucket after bucket and each chain from head to
    tail. *)
Theorem printmap_lists_table map :
  wf map →
  ∃ out,
    printmap map = Some out ∧
    printed_buckets out = Z.of_nat <$> seq 0 (Z.to_nat (capacity map)) ∧
    printed_entries out
    = (λ e, (entry_key e, entry_value e)) <$> concat (table map).
Proof.
  intros [Hcap Hlen].
  destruct (printmap_loop_spec map 0 (Z.to_nat (capacity map)))
    as (out & Hout & Hentries & Hbuckets); [lia|].
  exists out. split_and!; [done | done |].
  rewrite Hentries, drop_0, <- Hlen, firstn_all. done.
Qed.

Lemma printmap_lists_table_witness :
  ∃ out,
    printmap chained_map = Some out ∧
    printed_buckets out = Z.of_nat <$> seq 0 (Z.to_nat (capacity chained_map)) ∧
    printed_entries out
    = (λ e, (entry_key e, entry_value e)) <$> concat (table chained_map).
Proof.
  apply (printmap_lists_table chained_map). exact wf_chained_map.
Defined.

(** The same dump, evaluated. *)
Example printmap_lists_table_evaluated :
  printed_buckets <$> printmap chained_map = Some [0; 1; 2; 3] ∧
  printed_entries <$> printmap chained_map = Some [(1, 10); (5, 20); (-3, 7)].
Proof. split; reflexivity. Qed.

(** X10 ([printmap] shows the bindings).  On a map that satisfies the bucket
    invariant, [printmap] prints the pair [(key, value)] exactly when the map
    binds [key] to [value] (when [get map key] finds [value]), and prints no
    key twice. *)
Theorem printmap_shows_bindings map :
  map_inv map →
  ∃ out,
    printmap map = Some out ∧
    NoDup (printed_entries out).*1 ∧
    ∀ key value,
      (key, value) ∈ printed_entries out ↔ contents map !! key = Some value.
Proof.
  intros Hinv. pose proof Hinv as [[Hcap Hlen] _].
  destruct (printmap_loop_spec map 0 (Z.to_nat (capacity map)))
    as (out & Hout & Hentries & _); [lia|].
  rewrite drop_0, <- Hlen, firstn_all in Hentries.
  assert (NoDup (printed_entries out).*1) as Hnd.
  { rewrite Hentries, <- list_fmap_compose. by apply map_inv_NoDup. }
  exists out. split_and!; [done | done |].
  intros key value. unfold contents.
  rewrite <- elem_of_list_to_map by (by rewrite <- Hentries).
  by rewrite Hentries.
Qed.

Lemma printmap_shows_bindings_witness :
  ∃ out,
    printmap chained_map = Some out ∧
    NoDup (printed_entries out).*1 ∧
    ∀ key value,
      (key, value) ∈ printed_entries out ↔
      contents chained_map !! key = Some value.
Proof.
  apply (printmap_shows_bindings chained_map). exact map_inv_chained_map.
Defined.

(** The same dump, evaluated against the bindings. *)
Example printmap_shows_bindings_evaluated :
  printed_entries <$> printmap chained_map = Some [(1, 10); (5, 20); (-3, 7)] ∧
  contents chained_map !! 1 = Some 10 ∧
  contents chained_map !! 5 = Some 20 ∧
  contents chained_map !! (-3) = Some 7 ∧
  contents chained_map !! 9 = None.
Proof. split_and!; vm_compute; reflexivity. Qed.

(** ** The locking discipline *)

Section Locks.

Implicit Types (map : ts_hashmap_t) (held : list mutex) (events : list lock_event).

Lemma lock_step_lock held m :
  m ∉ held → lock_step held (Lock m) = Some (m :: held).
Proof. intros Hm. simpl. by rewrite decide_False. Qed.

Lemma lock_step_unlock_head held m :
  m ∉ held → lock_step (m :: held) (Unlock m) = Some held.
Proof.
  intros Hm. simpl. rewrite decide_True by left.
  rewrite filter_cons_False by (intros Hne; by apply Hne). f_equal.
  induction held as [|m' held IH]; [done|].
  apply not_elem_of_cons in Hm as [Hne Hm].
  rewrite filter_cons_True by done. f_equal. by apply IH.
Qed.

Lemma lock_run_app held events events' :
  lock_run held (events ++ events')
  = lock_run held events ≫= λ held', lock_run held' events'.
Proof.
  revert held. induction events as [|event events IH]; intros held; simpl; [done|].
  destruct (lock_step held event) as [held'|]; simpl; [apply IH | done].
Qed.

Lemma lock_trace_app held events events' :
  lock_trace held (events ++ events')
  = trace ← lock_trace held events;
    held' ← lock_run held events;
    trace' ← lock_trace held' events';
    Some (trace ++ trace').
Proof.
  revert held. induction events as [|event events IH]; intros held; simpl.
  - by destruct (lock_trace held events').
  - destruct (lock_step held event) as [held'|]; simpl; [|done].
    rewrite IH. destruct (lock_trace held' events) as [trace|]; simpl; [|done].
    destruct (lock_run held' events) as [held''|]; simpl; [|done].
    by destruct (lock_trace held'' events').
Qed.

#[local] Opaque lock_step.

Ltac not_held :=
  repeat (apply not_elem_of_cons; split; [discriminate|]); apply not_elem_of_nil.

Ltac lock_eval :=
  simpl;
  repeat (first [ rewrite lock_step_lock by not_held
                | rewrite lock_step_unlock_head by not_held ]; simpl).

(** The three sequences a call can make, and what the thread holds after
    each event. *)
Lemma lock_trace_plain (index : nat) :
  let events :=
    [Lock (Bucket_lock index); Unlock (Bucket_lock index);
     Lock NumOps_mutex; Unlock NumOps_mutex;
     Lock NumOps_mutex; Unlock NumOps_mutex] in
  lock_trace [] events
  = Some [[Bucket_lock index]; []; [NumOps_mutex]; []; [NumOps_mutex]; []] ∧
  lock_run [] events = Some [].
Proof. split; lock_eval; done. Qed.

Lemma lock_trace_nested (index : nat) :
  let events :=
    [Lock (Bucket_lock index); Lock Size_mutex; Unlock Size_mutex;
     Unlock (Bucket_lock index);
     Lock NumOps_mutex; Unlock NumOps_mutex;
     Lock NumOps_mutex; Unlock NumOps_mutex] in
  lock_trace [] events
  = Some [[Bucket_lock index]; [Size_mutex; Bucket_lock index];
          [Bucket_lock index]; [];
          [NumOps_mutex]; []; [NumOps_mutex]; []] ∧
  lock_run [] events = Some [].
Proof. split; lock_eval; done. Qed.

Lemma lock_trace_abort (index : nat) :
  let events :=
    [Lock (Bucket_lock index); Unlock (Bucket_lock index);
     Lock NumOps_mutex; Unlock NumOps_mutex] in
  lock_trace [] events = Some [[Bucket_lock index]; []; [NumOps_mutex]; []] ∧
  lock_run [] events = Some [].
Proof. split; lock_eval; done. Qed.

Lemma held_ok_nil : held_ok [].
Proof. by left. Qed.

Lemma held_ok_numOps : held_ok [NumOps_mutex].
Proof. right. by left. Qed.

Lemma held_ok_bucket (index : nat) : held_ok [Bucket_lock index].
Proof. right. right. exists index. by left. Qed.

Lemma held_ok_size (index : nat) : held_ok [Size_mutex; Bucket_lock index].
Proof. right. right. exists index. by right. Qed.

Ltac held_shapes :=
  repeat (apply Forall_cons; split;
          [first [ apply held_ok_nil | apply held_ok_numOps
                 | apply held_ok_bucket | apply held_ok_size ]|]);
  apply Forall_nil_2.

(** Every call takes and gives back its mutexes in one of these sequences. *)
Lemma step_locks_ok map o :
  wf map →
  ∃ events trace,
    step_locks map o = Some events ∧
    lock_trace [] events = Some trace ∧
    Forall held_ok trace ∧
    lock_run [] events = Some [].
Proof.
  intros Hwf. destruct o as [key|key value malloc_ok|key]; simpl.
  - destruct (wf_bucket map key Hwf) as (i & chain & Hi & Hc & _).
    unfold get_locks. rewrite Hi. simpl. rewrite Hc. simpl.
    destruct (lock_trace_plain i) as [Ht Hr].
    eexists _, _. split_and!; [done | exact Ht | held_shapes | exact Hr].
  - destruct (wf_bucket map key Hwf) as (i & chain & Hi & Hc & _).
    unfold put_locks. rewrite Hi. simpl. rewrite Hc. simpl.
    destruct (put_loop key value chain) as [[old chain']|]; [|destruct malloc_ok].
    + destruct (lock_trace_plain i) as [Ht Hr].
      eexists _, _. split_and!; [done | exact Ht | held_shapes | exact Hr].
    + destruct (lock_trace_nested i) as [Ht Hr].
      eexists _, _. split_and!; [done | exact Ht | held_shapes | exact Hr].
    + destruct (lock_trace_abort i) as [Ht Hr].
      eexists _, _. split_and!; [done | exact Ht | held_shapes | exact Hr].
  - destruct (wf_bucket map key Hwf) as (i & chain & Hi & Hc & _).
    unfold del_locks. rewrite Hi. simpl. rewrite Hc. simpl.
    destruct (del_loop key chain) as [[v chain']|].
    + destruct (lock_trace_nested i) as [Ht Hr].
      eexists _, _. split_and!; [done | exact Ht | held_shapes | exact Hr].
    + destruct (lock_trace_plain i) as [Ht Hr].
      eexists _, _. split_and!; [done | exact Ht | held_shapes | exact Hr].
Qed.

(** A call on a well-formed map returns and leaves the map well formed. *)
Lemma step_wf map o :
  wf map → ∃ r map', step map o = Some (r, map') ∧ wf map'.
Proof.
  intros Hwf. destruct o as [key|key value malloc_ok|key]; simpl.
  - rewrite get_binding by done. eauto.
  - destruct (put_cases map key value malloc_ok Hwf)
      as (i & chain & _ & _ & _ & [(old & chain' & _ & ->)|[(_ & _ & ->)|(_ & _ & ->)]]);
      eexists _, _; (split; [done|]); first [by apply wf_set_bucket | done].
  - destruct (del_cases map key Hwf)
      as (i & chain & _ & _ & _ & [(v & chain' & _ & ->)|(_ & ->)]);
      eexists _, _; (split; [done|]); first [by apply wf_set_bucket | done].
Qed.

End Locks.

(** X11 (locking discipline).  On a well-formed map, over every sequence of
    calls made by one thread: no call locks a mutex the thread holds or
    unlocks one it does not hold; at every moment the thread holds nothing,
    one bucket lock, [size_mutex] inside one bucket lock, or [numOps_mutex]
    alone; and after the last call, on every path, also that of a failed
    allocation, it holds nothing. *)
Theorem locks_balanced map ops :
  wf map →
  ∃ events trace,
    run_locks map ops = Some events ∧
    lock_trace [] events = Some trace ∧
    Forall held_ok trace ∧
    lock_run [] events = Some [].
Proof.
  revert map. induction ops as [|o ops IH]; intros map Hwf; simpl.
  - exists [], []. done.
  - destruct (step_locks_ok map o Hwf) as (events & trace & -> & Ht & Hok & Hr).
    destruct (step_wf map o Hwf) as (r & map1 & -> & Hwf1). simpl.
    destruct (IH map1 Hwf1) as (events' & trace' & -> & Ht' & Hok' & Hr'). simpl.
    exists (events ++ events'), (trace ++ trace').
    rewrite lock_trace_app, lock_run_app, Ht, Hr. simpl. rewrite Ht', Hr'. simpl.
    split_and!; [done | done | by apply Forall_app | done].
Qed.

Lemma locks_balanced_witness :
  ∃ events trace,
    run_locks (empty_map 4) (Put 9 1 false :: scenario) = Some events ∧
    lock_trace [] events = Some trace ∧
    Forall held_ok trace ∧
    lock_run [] events = Some [].
Proof.
  apply (locks_balanced (empty_map 4) (Put 9 1 false :: scenario)).
  exact wf_empty_map_4.
Defined.

(** ** Teardown *)

Example freeMap_scenario :
  snd <$> (run (empty_map 4) scenario ≫= λ map, freeMap (Some map))
  = Some [Free_entry (mk_entry 1 11); Free_table;
          Destroy_mutex (Bucket_lock 0); Destroy_mutex (Bucket_lock 1);
          Destroy_mutex (Bucket_lock 2); Destroy_mutex (Bucket_lock 3);
          Free_locks; Destroy_mutex NumOps_mutex; Destroy_mutex Size_mutex;
          Free_map].
Proof. reflexivity. Qed.

Section Teardown.

Implicit Types (map : ts_hashmap_t) (chain : list ts_entry_t).

Lemma free_entries_loop_spec map (i count : nat) :
  (i + count ≤ length (table map))%nat →
  free_entries_loop map (Z.of_nat i) count
  = Some (Free_entry <$> concat (take count (drop i (table map)))).
Proof.
  revert i. induction count as [|count IH]; intros i Hlen; simpl; [done|].
  destruct (lookup_lt_is_Some_2 (table map) i) as [chain Hc]; [lia|].
  rewrite Nat2Z.id, Hc. simpl.
  replace (Z.of_nat i + 1) with (Z.of_nat (S i)) by lia.
  rewrite IH by lia. simpl.
  by rewrite (drop_S _ _ _ Hc), firstn_cons, concat_cons, fmap_app.
Qed.

Lemma destroy_locks_loop_init (i count : nat) :
  destroy_locks_loop i count = Destroy_mutex <$> init_locks_loop i count.
Proof.
  revert i. induction count as [|count IH]; intros i; simpl; [done|].
  by rewrite IH.
Qed.

Lemma omap_fmap_None {A B C : Type} (f : B → option C) (g : A → B) (l : list A) :
  (∀ x, f (g x) = None) → omap f (g <$> l) = [].
Proof.
  intros Hnone. induction l as [|x l IH]; [done|].
  csimpl. by rewrite Hnone.
Qed.

Lemma freed_entries_fmap chain : freed_entries (Free_entry <$> chain) = chain.
Proof.
  unfold freed_entries. induction chain as [|e chain IH]; [done|].
  csimpl. f_equal. exact IH.
Qed.

Lemma destroyed_mutexes_fmap (ms : list mutex) :
  destroyed_mutexes (Destroy_mutex <$> ms) = ms.
Proof.
  unfold destroyed_mutexes. induction ms as [|m ms IH]; [done|].
  csimpl. f_equal. exact IH.
Qed.

Lemma freeMap_wf map :
  wf map →
  freeMap (Some map)
  = Some (Some (freeMap_report map),
          (Free_entry <$> concat (table map)) ++ [Free_table]
          ++ (Destroy_mutex <$> init_locks_loop 0 (Z.to_nat (capacity map)))
          ++ [Free_locks; Destroy_mutex NumOps_mutex;
              Destroy_mutex Size_mutex; Free_map]).
Proof.
  intros [Hcap Hlen]. unfold freeMap.
  rewrite (free_entries_loop_spec map 0) by lia. simpl.
  by rewrite drop_0, <- Hlen, firstn_all, destroy_locks_loop_init.
Qed.

End Teardown.

(** X12 (what [freeMap] releases).  On a well-formed map [freeMap] runs to
    the end and releases, in this order: every entry of the table, bucket
    after bucket and each chain from head to tail; then the table; then the
    bucket locks, in index order; then the lock array; then [numOps_mutex]
    and [size_mutex]; and last the map.  So every entry is freed once; the
    table, the lock array and the map are freed once each; and the mutexes
    destroyed are those [initmap] initialises for that capacity. *)
Theorem freeMap_releases map :
  wf map →
  ∃ rs,
    freeMap (Some map) = Some (Some (freeMap_report map), rs) ∧
    rs = (Free_entry <$> concat (table map))
         ++ [Free_table]
         ++ (Destroy_mutex <$> init_locks_loop 0 (Z.to_nat (capacity map)))
         ++ [Free_locks; Destroy_mutex NumOps_mutex; Destroy_mutex Size_mutex;
             Free_map] ∧
    freed_entries rs = concat (table map) ∧
    destroyed_mutexes rs = initmap_mutexes (capacity map) ∧
    freed_blocks rs = [Free_table; Free_locks; Free_map] ∧
    last rs = Some Free_map.
Proof.
  intros Hwf. eexists. split; [by apply freeMap_wf|]. split; [reflexivity|].
  unfold freed_entries, destroyed_mutexes, freed_blocks, initmap_mutexes.
  rewrite !omap_app. split_and!.
  - rewrite (omap_fmap_None _ Destroy_mutex) by done.
    fold (freed_entries (Free_entry <$> concat (table map))).
    rewrite freed_entries_fmap. simpl. by rewrite app_nil_r.
  - rewrite (omap_fmap_None _ Free_entry) by done.
    fold (destroyed_mutexes
            (Destroy_mutex <$> init_locks_loop 0 (Z.to_nat (capacity map)))).
    rewrite destroyed_mutexes_fmap. done.
  - rewrite (omap_fmap_None _ Destroy_mutex) by done.
    rewrite (omap_fmap_None _ Free_entry) by done. done.
  - change [Free_locks; Destroy_mutex NumOps_mutex; Destroy_mutex Size_mutex;
            Free_map]
      with ([Free_locks; Destroy_mutex NumOps_mutex; Destroy_mutex Size_mutex]
            ++ [Free_map]).
    rewrite !app_assoc. apply last_snoc.
Qed.

Lemma freeMap_releases_witness :
  ∃ rs,
    freeMap (Some chained_map) = Some (Some (freeMap_report chained_map), rs) ∧
    rs = (Free_entry <$> concat (table chained_map))
         ++ [Free_table]
         ++ (Destroy_mutex
             <$> init_locks_loop 0 (Z.to_nat (capacity chained_map)))
         ++ [Free_locks; Destroy_mutex NumOps_mutex; Destroy_mutex Size_mutex;
             Free_map] ∧
    freed_entries rs = concat (table chained_map) ∧
    destroyed_mutexes rs = initmap_mutexes (capacity chained_map) ∧
    freed_blocks rs = [Free_table; Free_locks; Free_map] ∧
    last rs = Some Free_map.
Proof.
  apply (freeMap_releases chained_map). exact wf_chained_map.
Defined.

(** The same teardown, evaluated. *)
Example freeMap_releases_evaluated :
  snd <$> freeMap (Some chained_map)
  = Some [Free_entry (mk_entry 1 10); Free_entry (mk_entry 5 20);
          Free_entry (mk_entry (-3) 7); Free_table;
          Destroy_mutex (Bucket_lock 0); Destroy_mutex (Bucket_lock 1);
          Destroy_mutex (Bucket_lock 2); Destroy_mutex (Bucket_lock 3);
          Free_locks; Destroy_mutex NumOps_mutex; Destroy_mutex Size_mutex;
          Free_map].
Proof. reflexivity. Qed.

(** X13 (teardown balances the allocations).  From a map that [initmap]
    returned for a positive capacity [c], after every sequence of calls
    [freeMap] runs to the end; the entries it frees are as many as the puts
    that allocated an entry less the deletes that freed one, and the mutexes
    it destroys are those [initmap] initialised: the [c] bucket locks in
    index order, [numOps_mutex] and [size_mutex]. *)
Theorem teardown_balances a env c h map0 h' ops :
  initmap a env c h = (Some map0, h') →
  0 < c ≤ INT_MAX →
  ∃ map rs,
    run map0 ops = Some map ∧
    freeMap (Some map) = Some (Some (freeMap_report map), rs) ∧
    Z.of_nat (length (freed_entries rs))
    = tally is_insert map0 ops - tally is_removal map0 ops ∧
    destroyed_mutexes rs = initmap_mutexes c.
Proof.
  intros ->%initmap_Some Hc.
  destruct (run_inv (empty_map c) ops (wf_empty_map c Hc))
    as (map & Hrun & [Hwf _] & Hcap).
  destruct (fresh_size c ops map Hc Hrun) as [_ Hent].
  rewrite entries_concat in Hent. simpl in Hcap.
  eexists map, _. split_and!; [done | by apply freeMap_wf | |].
  - unfold freed_entries. rewrite !omap_app.
    rewrite (omap_fmap_None _ Destroy_mutex) by done.
    fold (freed_entries (Free_entry <$> concat (table map))).
    rewrite freed_entries_fmap. simpl. by rewrite app_nil_r.
  - unfold destroyed_mutexes, initmap_mutexes. rewrite !omap_app.
    rewrite (omap_fmap_None _ Free_entry) by done.
    fold (destroyed_mutexes
            (Destroy_mutex <$> init_locks_loop 0 (Z.to_nat (capacity map)))).
    rewrite destroyed_mutexes_fmap, Hcap. done.
Qed.

Lemma teardown_balances_witness :
  ∃ map rs,
    run (empty_map 4) scenario = Some map ∧
    freeMap (Some map) = Some (Some (freeMap_report map), rs) ∧
    Z.of_nat (length (freed_entries rs))
    = tally is_insert (empty_map 4) scenario
      - tally is_removal (empty_map 4) scenario ∧
    destroyed_mutexes rs = initmap_mutexes 4.
Proof.
  apply (teardown_balances lp64 all_ok 4 ∅ (empty_map 4)
           (initmap lp64 all_ok 4 ∅).2 scenario).
  - vm_compute. reflexivity.
  - unfold INT_MAX. lia.
Defined.

(** ** Order of the entries *)

Section Order.

Implicit Types (map : ts_hashmap_t) (key value : Z) (chain : list ts_entry_t).

Lemma filter_key_absent key chain :
  chain_lookup key chain = None →
  filter (λ e, entry_key e ≠ key) chain = chain.
Proof.
  induction chain as [|e next IH]; simpl; [done|].
  destruct (Z.eqb_spec (entry_key e) key) as [Hk|Hk]; [done|].
  intros Hl. rewrite filter_cons_True by done. by rewrite IH.
Qed.

Lemma del_loop_filter key chain v chain' :
  NoDup (entry_key <$> chain) → del_loop key chain = Some (v, chain') →
  chain' = filter (λ e, entry_key e ≠ key) chain.
Proof.
  revert v chain'. induction chain as [|e next IH]; intros v chain'; simpl; [done|].
  intros [Hnotin Hnd]%NoDup_cons.
  destruct (Z.eqb_spec (entry_key e) key) as [Hk|Hk].
  - intros [= <- <-]. rewrite filter_cons_False by (intros Hne; by apply Hne).
    symmetry. apply filter_key_absent, chain_lookup_None. by rewrite <- Hk.
  - destruct (del_loop key next) as [[v' next']|] eqn:Hdel; simpl; [|done].
    intros [= <- <-]. rewrite filter_cons_True by done.
    f_equal. by eapply IH.
Qed.

Lemma put_loop_fmap key value chain old chain' :
  put_loop key value chain = Some (old, chain') →
  NoDup (entry_key <$> chain) →
  chain' = (λ e, if entry_key e =? key then mk_entry key value else e) <$> chain.
Proof.
  revert old chain'. induction chain as [|e next IH]; intros old chain'; csimpl; [done|].
  destruct (Z.eqb_spec (entry_key e) key) as [Hk|Hk].
  - intros [= <- <-] [Hnotin Hnd]%NoDup_cons. rewrite Hk. f_equal.
    rewrite Hk in Hnotin. clear IH Hk Hnd.
    induction next as [|e' next IH]; csimpl; [done|].
    apply not_elem_of_cons in Hnotin as [Hne Hnotin].
    destruct (Z.eqb_spec (entry_key e') key); [congruence|].
    f_equal. by apply IH.
  - destruct (put_loop key value next) as [[old' next']|] eqn:Hput; simpl; [|done].
    intros [= <- <-] [Hnotin Hnd]%NoDup_cons. f_equal. by eapply IH.
Qed.

Lemma fmap_key_absent key value chain :
  chain_lookup key chain = None →
  (λ e, if entry_key e =? key then mk_entry key value else e) <$> chain = chain.
Proof.
  induction chain as [|e next IH]; csimpl; [done|].
  destruct (Z.eqb_spec (entry_key e) key) as [Hk|Hk]; [done|].
  intros Hl. by rewrite IH.
Qed.

(** Under the bucket invariant a chain of a bucket the key does not route
    to holds no entry for the key. *)
Lemma other_bucket_absent map key (i j : nat) chain :
  map_inv map → bucket_index map key = Some i → j ≠ i →
  table map !! j = Some chain → chain_lookup key chain = None.
Proof.
  intros [Hwf Hbuckets] Hi Hne Hj.
  destruct (wf_bucket map key Hwf) as (i' & chain' & Hi' & _ & Hr).
  rewrite Hi in Hi'. injection Hi' as <-.
  destruct (Hbuckets j chain Hj) as [_ Hroute].
  apply chain_lookup_None. intros (e & Hk & He)%list_elem_of_fmap.
  rewrite Forall_forall in Hroute. specialize (Hroute _ He). simpl in Hroute.
  rewrite <- Hk in Hroute. lia.
Qed.

End Order.

(** X14 ([del] keeps the order).  On a map that satisfies the bucket
    invariant, [del map key], whether it finds the key or not, leaves in
    every bucket the chain of before without the entry for [key], the other
    entries in their order. *)
Theorem del_keeps_order map key :
  map_inv map →
  ∃ r map',
    del map key = Some (r, map') ∧
    table map' = filter (λ e, entry_key e ≠ key) <$> table map.
Proof.
  intros Hinv. pose proof Hinv as [Hwf Hbuckets].
  destruct (del_cases map key Hwf)
    as (i & chain & Hi & Hc & _ & [(v & chain' & Hl & ->)|(Hl & ->)]);
    eexists _, _; (split; [done|]); simpl;
    apply list_eq; intros j; rewrite list_lookup_fmap;
    destruct (decide (j = i)) as [->|Hne].
  - rewrite list_lookup_insert_eq by (by eapply lookup_lt_Some).
    rewrite Hc. simpl. f_equal.
    eapply del_loop_filter; [|done]. by apply (Hbuckets i chain).
  - rewrite list_lookup_insert_ne by done.
    destruct (table map !! j) as [chain_j|] eqn:Hj; simpl; [|done].
    f_equal. symmetry. apply filter_key_absent.
    by apply (other_bucket_absent map key i j).
  - rewrite Hc. simpl. f_equal. symmetry.
    apply filter_key_absent. by apply del_loop_None.
  - destruct (table map !! j) as [chain_j|] eqn:Hj; simpl; [|done].
    f_equal. symmetry. apply filter_key_absent.
    by apply (other_bucket_absent map key i j).
Qed.

Lemma del_keeps_order_witness :
  ∃ r map',
    del chained_map 5 = Some (r, map') ∧
    table map' = filter (λ e, entry_key e ≠ 5) <$> table chained_map.
Proof.
  apply (del_keeps_order chained_map 5). exact map_inv_chained_map.
Defined.

(** The same call, evaluated: the entries before and after the one removed
    keep their order. *)
Example del_keeps_order_evaluated :
  (λ '(r, map'), (r, table map')) <$> del chained_map 5
  = Some (20, [[]; [mk_entry 1 10; mk_entry (-3) 7]; []; []]) ∧
  filter (λ e, entry_key e ≠ 5) <$> table chained_map
  = [[]; [mk_entry 1 10; mk_entry (-3) 7]; []; []].
Proof. split; reflexivity. Qed.

(** X15 ([put] keeps the order).  On a map that satisfies the bucket
    invariant: a [put] on a key that is bound overwrites the value of its
    entry where it stands, whatever [malloc] would answer, and moves no
    entry; a [put] on a key that is not bound, given memory, adds the entry
    at the tail of the chain of the bucket the key routes to and touches no
    other bucket. *)
Theorem put_keeps_order map key value malloc_ok :
  map_inv map →
  (is_Some (contents map !! key) →
   ∃ old map',
     put map key value malloc_ok = Some (old, map') ∧
     table map'
     = (λ chain : list ts_entry_t,
          (λ e, if entry_key e =? key then mk_entry key value else e) <$> chain)
       <$> table map) ∧
  (contents map !! key = None →
   ∃ map' (i : nat) chain,
     put map key value true = Some (INT_MAX, map') ∧
     Z.of_nat i = to_unsigned key mod capacity map ∧
     table map !! i = Some chain ∧
     table map' = <[i := chain ++ [mk_entry key value]]> (table map)).
Proof.
  intros Hinv. pose proof Hinv as [Hwf Hbuckets].
  rewrite (contents_binding map key Hinv). split.
  - intros [old Hold].
    destruct (put_cases map key value malloc_ok Hwf)
      as (i & chain & Hi & Hc & _ & [(old' & chain' & Hl & ->)|[(Hl & _)|(Hl & _)]]).
    + eexists _, _. split; [done|]. simpl.
      apply list_eq. intros j. rewrite list_lookup_fmap.
      destruct (decide (j = i)) as [->|Hne].
      * rewrite list_lookup_insert_eq by (by eapply lookup_lt_Some).
        rewrite Hc. simpl. f_equal.
        eapply put_loop_fmap; [done|]. by apply (Hbuckets i chain).
      * rewrite list_lookup_insert_ne by done.
        destruct (table map !! j) as [chain_j|] eqn:Hj; simpl; [|done].
        f_equal. symmetry. apply fmap_key_absent.
        by apply (other_bucket_absent map key i j).
    + apply put_loop_None in Hl.
      rewrite (wf_binding _ _ _ _ Hi Hc) in Hold. congruence.
    + apply put_loop_None in Hl.
      rewrite (wf_binding _ _ _ _ Hi Hc) in Hold. congruence.
  - intros Hnone.
    destruct (put_cases map key value true Hwf)
      as (i & chain & Hi & Hc & Hr & [(old' & chain' & Hl & _)|[(Hl & _ & ->)|(_ & ? & _)]]);
      [| |done].
    + apply put_loop_Some in Hl as (Hold & _).
      rewrite (wf_binding _ _ _ _ Hi Hc) in Hnone. congruence.
    + eexists _, i, chain. split_and!; done.
Qed.

Lemma put_keeps_order_witness :
  (∃ old map',
     put chained_map 5 99 false = Some (old, map') ∧
     table map'
     = (λ chain : list ts_entry_t,
          (λ e, if entry_key e =? 5 then mk_entry 5 99 else e) <$> chain)
       <$> table chained_map) ∧
  (∃ map' (i : nat) chain,
     put chained_map 9 99 true = Some (INT_MAX, map') ∧
     Z.of_nat i = to_unsigned 9 mod capacity chained_map ∧
     table chained_map !! i = Some chain ∧
     table map' = <[i := chain ++ [mk_entry 9 99]]> (table chained_map)).
Proof.
  split.
  - apply (proj1 (put_keeps_order chained_map 5 99 false map_inv_chained_map)).
    exists 20. vm_compute. reflexivity.
  - apply (proj2 (put_keeps_order chained_map 9 99 true map_inv_chained_map)).
    vm_compute. reflexivity.
Defined.

(** The same two calls, evaluated: the value of the middle entry is
    overwritten where it stands, and the new entry goes behind the three. *)
Example put_keeps_order_evaluated :
  (λ '(r, map'), (r, table map')) <$> put chained_map 5 99 false
  = Some (20, [[]; [mk_entry 1 10; mk_entry 5 99; mk_entry (-3) 7]; []; []]) ∧
  (λ '(r, map'), (r, table map')) <$> put chained_map 9 99 true
  = Some (INT_MAX,
          [[]; [mk_entry 1 10; mk_entry 5 20; mk_entry (-3) 7; mk_entry 9 99];
           []; []]).
Proof. split; reflexivity. Qed.

Lemma del_loop_app_new key value (chain : list ts_entry_t) :
  chain_lookup key chain = None →
  del_loop key (chain ++ [mk_entry key value]) = Some (value, chain).
Proof.
  induction chain as [|e next IH]; simpl.
  - by rewrite Z.eqb_refl.
  - destruct (entry_key e =? key); [done|]. intros Hl. by rewrite IH.
Qed.

(** X16 (insert, then delete).  On a well-formed map that holds no entry for
    [key], a [put map key value] that is given memory followed by
    [del map key] returns [INT_MAX], then [value], and leaves the table as it
    was before the two calls, every chain as it was, and [size] at its old
    value (as a 32-bit [int]). *)
Theorem put_del_round_trip map key value :
  wf map →
  has_key map key = false →
  ∃ map1 map2,
    put map key value true = Some (INT_MAX, map1) ∧
    del map1 key = Some (value, map2) ∧
    table map2 = table map ∧
    size map2 = int_wrap (size map) ∧
    has_key map2 key = false.
Proof.
  intros Hwf Hnew. pose proof (has_key_false_binding map key Hwf Hnew) as Hb.
  destruct (put_cases map key value true Hwf)
    as (i & chain & Hi & Hc & _ & [(old' & chain' & Hl & _)|[(Hl & _ & Hput)|(_ & ? & _)]]);
    [| |done].
  { apply put_loop_Some in Hl as (Hold & _).
    rewrite (wf_binding _ _ _ _ Hi Hc) in Hb. congruence. }
  apply put_loop_None in Hl.
  pose proof (lookup_lt_Some _ _ _ Hc) as Hlt.
  eexists _, _. split; [exact Hput|].
  unfold del.
  change (bucket_index (count_put_adds (count_numOps (grow_size
            (set_bucket i (chain ++ [mk_entry key value]) map)))) key)
    with (bucket_index map key).
  rewrite Hi. simpl. rewrite list_lookup_insert_eq by done. simpl.
  rewrite (del_loop_app_new key value chain Hl). simpl.
  assert (<[i:=chain]> (<[i:=chain ++ [mk_entry key value]]> (table map))
          = table map) as Htable.
  { rewrite list_insert_insert_eq. by apply list_insert_id. }
  split_and!; [done | exact Htable | |].
  - simpl. unfold int_incr. by rewrite int_decr_wrap, Z.add_simpl_r.
  - unfold has_key. simpl. rewrite Htable. exact Hnew.
Qed.

Lemma put_del_round_trip_witness :
  ∃ map1 map2,
    put (empty_map 4) 1 10 true = Some (INT_MAX, map1) ∧
    del map1 1 = Some (10, map2) ∧
    table map2 = table (empty_map 4) ∧
    size map2 = int_wrap (size (empty_map 4)) ∧
    has_key map2 1 = false.
Proof.
  apply (put_del_round_trip (empty_map 4) 1 10).
  - exact wf_empty_map_4.
  - reflexivity.
Defined.

(** ** Routing *)

(** X17 (routing stays inside the table).  On a well-formed map every [int]
    key, negative ones included, routes to an index of the table: the
    remainder of the key by the capacity for a key that is not negative, the
    remainder of [key + 2^32] for a negative one, which the cast to
    [unsigned int] makes it; and [get], [put] and [del] on that key read and
    write the chain of that bucket only. *)
Theorem routing_in_bounds map key :
  wf map →
  - 2147483648 ≤ key ≤ INT_MAX →
  ∃ i : nat,
    bucket_index map key = Some i ∧
    (i < length (table map))%nat ∧
    Z.of_nat i
    = (if key <? 0 then key + UINT_MODULUS else key) mod capacity map ∧
    ∀ o r map' (j : nat),
      o = Get key ∨ (∃ value malloc_ok, o = Put key value malloc_ok) ∨ o = Del key →
      step map o = Some (r, map') → j ≠ i →
      table map' !! j = table map !! j.
Proof.
  intros Hwf Hkey.
  destruct (wf_bucket map key Hwf) as (i & chain & Hi & Hc & Hr).
  exists i. split_and!; [done | by eapply lookup_lt_Some | |].
  - rewrite Hr. f_equal. unfold to_unsigned, UINT_MODULUS, INT_MAX in *.
    destruct (Z.ltb_spec key 0).
    + symmetry. apply (Z.mod_unique _ _ (-1)); lia.
    + apply Z.mod_small. lia.
  - intros o r map' j Ho Hstep Hne.
    destruct Ho as [->|[(value & malloc_ok & ->)| ->]]; simpl in Hstep.
    + rewrite get_binding in Hstep by done. by injection Hstep as _ <-.
    + destruct (put_cases map key value malloc_ok Hwf)
        as (i' & chain' & Hi' & _ & _ & Hcases).
      rewrite Hi in Hi'. injection Hi' as <-.
      destruct Hcases as [(old & chain'' & _ & Hput)|[(_ & _ & Hput)|(_ & _ & Hput)]];
        rewrite Hstep in Hput; injection Hput as _ ->; simpl;
        first [by rewrite list_lookup_insert_ne | done].
    + destruct (del_cases map key Hwf) as (i' & chain' & Hi' & _ & _ & Hcases).
      rewrite Hi in Hi'. injection Hi' as <-.
      destruct Hcases as [(v & chain'' & _ & Hdel)|(_ & Hdel)];
        rewrite Hstep in Hdel; injection Hdel as _ ->; simpl;
        first [by rewrite list_lookup_insert_ne | done].
Qed.

Lemma routing_in_bounds_witness :
  ∃ i : nat,
    bucket_index (empty_map 4) (-3) = Some i ∧
    (i < length (table (empty_map 4)))%nat ∧
    Z.of_nat i
    = (if -3 <? 0 then -3 + UINT_MODULUS else -3) mod capacity (empty_map 4) ∧
    ∀ o r map' (j : nat),
      o = Get (-3) ∨ (∃ value malloc_ok, o = Put (-3) value malloc_ok)
      ∨ o = Del (-3) →
      step (empty_map 4) o = Some (r, map') → j ≠ i →
      table map' !! j = table (empty_map 4) !! j.
Proof.
  apply (routing_in_bounds (empty_map 4) (-3)).
  - exact wf_empty_map_4.
  - unfold INT_MAX. lia.
Defined.
